(** * State sync reactor (internal/statesync/reactor.go)

    A shallow embedding of the reactor shell, the top-level [Sync], the
    backfill engine and the serve-side handlers, followed by the properties
    of the specification that concern them.

    Conventions of the embedding:
    - Go's [int64], [uint64], [uint32] are [Z] with the wrap-around written
      out ([Int64.wrap]); byte slices are [list Byte.byte], a slice that the
      code compares with [nil] is an [option];
    - every goroutine is a sequential program over a [World] (the reactor's
      fields and the trace of the calls it makes on its collaborators); what
      other goroutines and the collaborators answer comes from explicit
      schedules and outcome arguments;
    - a call that waits (on a mutex, on a [select] no case of which is
      ready) yields [Blocked]; logging is left out. *)

From Stdlib Require Import ZArith Lia.
From stdpp Require Import base numbers list strings gmap sorting.

Local Open Scope Z_scope.

(** ** Machine integers *)

Module Int64.
Definition modulus : Z := 2 ^ 64.
Definition min_signed : Z := - 2 ^ 63.
Definition max_signed : Z := 2 ^ 63 - 1.

Definition in_range (z : Z) : Prop := min_signed <= z <= max_signed.

(** two's complement reduction of a mathematical integer to [int64] *)
Definition wrap (z : Z) : Z := (z + 2 ^ 63) mod modulus - 2 ^ 63.

Definition add (a b : Z) : Z := wrap (a + b).
Definition sub (a b : Z) : Z := wrap (a - b).
Definition neg (a : Z) : Z := wrap (- a).
End Int64.

(** Go's conversion [byte(x)] of an unsigned integer *)
Definition byte_of (z : Z) : Z := Z.land z 255.

(** ** Byte slices, node ids, errors *)

Definition bytes : Type := list Byte.byte.

#[global] Instance byte_eq_dec : EqDecision Byte.byte := Byte.byte_eq_dec.

(** [bytes.Equal]: a nil slice and an empty one are equal, as for lists *)
Definition bytes_Equal (a b : bytes) : bool := bool_decide (a = b).

Definition NodeID : Type := string.

(** The sentinel errors the reactor tests for with [errors.Is]. *)
Inductive sentinel : Type :=
| context_Canceled
| context_DeadlineExceeded
| errNoConnectedPeers.

#[global] Instance sentinel_eq_dec : EqDecision sentinel.
Proof. solve_decision. Defined.

Inductive error : Type :=
| errSentinel (s : sentinel)
| errors_New (msg : string)
  (** [fmt.Errorf] with a trailing [%w] verb wrapping [inner] *)
| fmt_Errorf_w (msg : string) (inner : error)
  (** the same call when the wrapped error is nil *)
| fmt_Errorf_w_nil (msg : string)
  (** [fmt.Errorf] with byte-slice arguments formatted by [%v] *)
| fmt_Errorf_v (msg : string) (args : list bytes).

(** [errors.Is(err, target)] for a sentinel target: follows the [%w] chain *)
Fixpoint error_Is (err : error) (target : sentinel) : bool :=
  match err with
  | errSentinel s => bool_decide (s = target)
  | fmt_Errorf_w _ inner => error_Is inner target
  | _ => false
  end.

Definition errors_Is (err : option error) (target : sentinel) : bool :=
  match err with
  | Some e => error_Is e target
  | None => false
  end.

(** ** Channel descriptors *)

Module Channels.

Definition ChannelID : Type := Z.

Definition SnapshotChannel : ChannelID := 0x60.
Definition ChunkChannel : ChannelID := 0x61.
Definition LightBlockChannel : ChannelID := 0x62.
Definition ParamsChannel : ChannelID := 0x63.

Definition recentSnapshots : Z := 10.
Definition snapshotMsgSize : Z := 4000000.
Definition chunkMsgSize : Z := 16000000.
Definition lightBlockMsgSize : Z := 10000000.
Definition paramMsgSize : Z := 100000.

(** durations in nanoseconds *)
Definition time_Second : Z := 1000000000.
Definition time_Millisecond : Z := 1000000.
Definition lightBlockResponseTimeout : Z := 10 * time_Second.
Definition consensusParamsResponseTimeout : Z := 5 * time_Second.
Definition maxLightBlockRequestRetries : Z := 20.

Record ChannelDescriptor : Type := {
  ID : Z;
  Priority : Z;
  SendQueueCapacity : Z;
  RecvMessageCapacity : Z;
  RecvBufferCapacity : Z;
  MaxSendBytes : Z
}.

(** the proto message type a channel carries *)
Inductive MsgType : Type := ssproto_Message.

Record ChannelDescriptorShim : Type := {
  shim_MsgType : MsgType;
  Descriptor : ChannelDescriptor
}.

Definition ChannelShims : gmap ChannelID ChannelDescriptorShim :=
  <[ SnapshotChannel := {|
       shim_MsgType := ssproto_Message;
       Descriptor := {|
         ID := byte_of SnapshotChannel;
         Priority := 6;
         SendQueueCapacity := 10;
         RecvMessageCapacity := snapshotMsgSize;
         RecvBufferCapacity := 128;
         MaxSendBytes := 400 |} |} ]>
  (<[ ChunkChannel := {|
       shim_MsgType := ssproto_Message;
       Descriptor := {|
         ID := byte_of ChunkChannel;
         Priority := 3;
         SendQueueCapacity := 4;
         RecvMessageCapacity := chunkMsgSize;
         RecvBufferCapacity := 128;
         MaxSendBytes := 400 |} |} ]>
  (<[ LightBlockChannel := {|
       shim_MsgType := ssproto_Message;
       Descriptor := {|
         ID := byte_of LightBlockChannel;
         Priority := 5;
         SendQueueCapacity := 10;
         RecvMessageCapacity := lightBlockMsgSize;
         RecvBufferCapacity := 128;
         MaxSendBytes := 400 |} |} ]>
  (<[ ParamsChannel := {|
       shim_MsgType := ssproto_Message;
       Descriptor := {|
         ID := byte_of ParamsChannel;
         Priority := 2;
         SendQueueCapacity := 10;
         RecvMessageCapacity := paramMsgSize;
         RecvBufferCapacity := 128;
         MaxSendBytes := 400 |} |} ]> ∅))).

(** the descriptor registered for a channel id, if any *)
Definition descriptorOf (ch : ChannelID) : option ChannelDescriptor :=
  Descriptor <$> ChannelShims !! ch.

End Channels.

(** [fmt.Errorf(msg ++ "%w", err)] for a possibly nil [err] *)
Definition wrapf (msg : string) (err : option error) : error :=
  match err with
  | Some e => fmt_Errorf_w msg e
  | None => fmt_Errorf_w_nil msg
  end.

(** ** Types of the packages the reactor imports

    [types], [state], [time] and the application connection are not part of
    the reactor; the reactor only moves their values around.  The types it
    never looks into and the functions it calls on them are collected in two
    interfaces. *)

Class ExternTypes : Type := {
  ValidatorSet : Type;   (* types.ValidatorSet *)
  Commit : Type;         (* types.Commit *)
  Time : Type;           (* time.Time *)
  HeaderRest : Type      (* the fields of types.Header the reactor never reads *)
}.

Section Data.
Context `{ExternTypes}.

Record PartSetHeader : Type := {
  psh_Total : Z;
  psh_Hash : bytes
}.

Record BlockID : Type := {
  bid_Hash : bytes;
  bid_PartSetHeader : PartSetHeader
}.

(** the fields of [types.Header] the reactor reads *)
Record Header : Type := {
  hdr_ChainID : string;
  hdr_Height : Z;
  hdr_LastBlockID : BlockID;
  hdr_ValidatorsHash : bytes;
  hdr_NextValidatorsHash : bytes;
  hdr_rest : HeaderRest
}.

Record SignedHeader : Type := {
  sh_Header : Header;
  sh_Commit : Commit
}.

(** [types.LightBlock]; the validator set is a pointer the code stores and
    later tests against nil *)
Record LightBlock : Type := {
  lb_SignedHeader : SignedHeader;
  lb_ValidatorSet : option ValidatorSet
}.

(** promoted fields [lb.Height], [lb.LastBlockID], [lb.Header] *)
Definition lb_Header (lb : LightBlock) : Header := sh_Header (lb_SignedHeader lb).
Definition lb_Height (lb : LightBlock) : Z := hdr_Height (lb_Header lb).
Definition lb_LastBlockID (lb : LightBlock) : BlockID := hdr_LastBlockID (lb_Header lb).

Record lightBlockResponse : Type := {
  resp_block : LightBlock;
  resp_peer : NodeID
}.

Record EvidenceParams : Type := {
  MaxAgeNumBlocks : Z;     (* int64 *)
  MaxAgeDuration : Z       (* time.Duration, an int64 of nanoseconds *)
}.

Record ConsensusParams : Type := {
  cp_Evidence : EvidenceParams
}.

(** the fields of [sm.State] the reactor reads *)
Record State : Type := {
  st_ChainID : string;
  st_InitialHeight : Z;
  st_LastBlockHeight : Z;
  st_LastBlockID : BlockID;
  st_LastBlockTime : Time;
  st_ConsensusParams : ConsensusParams
}.

(** [abci.Snapshot] and the reactor's own [snapshot] *)
Record abci_Snapshot : Type := {
  as_Height : Z;       (* uint64 *)
  as_Format : Z;       (* uint32 *)
  as_Chunks : Z;       (* uint32 *)
  as_Hash : bytes;
  as_Metadata : bytes
}.

Record snapshot : Type := {
  snap_Height : Z;
  snap_Format : Z;
  snap_Chunks : Z;
  snap_Hash : bytes;
  snap_Metadata : bytes
}.

Record chunk : Type := {
  chunk_Height : Z;
  chunk_Format : Z;
  chunk_Index : Z;
  chunk_Chunk : option bytes;
  chunk_Sender : NodeID
}.

(** ** Wire messages ([ssproto]) *)

Inductive Message : Type :=
| SnapshotsRequest
| SnapshotsResponse (Height Format Chunks : Z) (Hash Metadata : bytes)
| ChunkRequest (Height Format Index : Z)
| ChunkResponse (Height Format Index : Z) (Chunk : option bytes) (Missing : bool)
| LightBlockRequest (Height : Z)
| LightBlockResponse (LightBlock_ : option LightBlock)
| ParamsRequest (Height : Z)
| ParamsResponse (Height : Z) (ConsensusParams_ : ConsensusParams).

Record Envelope : Type := {
  env_From : NodeID;
  env_To : NodeID;
  env_Broadcast : bool;
  env_Message : Message
}.

Record PeerError : Type := {
  pe_NodeID : NodeID;
  pe_Err : error
}.

(** [abci.RequestLoadSnapshotChunk] *)
Record RequestLoadSnapshotChunk : Type := {
  req_Height : Z;
  req_Format : Z;
  req_Chunk : Z
}.

(** ** Reactor state *)

Record StateSyncConfig : Type := {
  cfg_UseP2P : bool;
  cfg_RPCServers : list string;
  cfg_TrustPeriod : Z;
  cfg_TrustHeight : Z;
  cfg_TrustHash : bytes;
  cfg_DiscoveryTime : Z;
  cfg_Fetchers : Z
}.

(** [tmsync.RWMutex] *)
Inductive RWMutex : Type :=
| Unlocked
| WLocked
| RLocked (readers : positive).

Record BlockProvider : Type := {
  bp_peer : NodeID;
  bp_chainID : string
}.

(** the two implementations of the [StateProvider] interface, each value
    carrying the providers or servers it was built from *)
Inductive StateProvider : Type :=
| stateProviderP2P (providers : list BlockProvider)
| stateProviderRPC (servers : list string).

(** what [newSyncer] captures from the reactor *)
Record syncer : Type := {
  syncer_cfg : StateSyncConfig;
  syncer_stateProvider : option StateProvider;
  syncer_tempDir : string
}.

Record Reactor : Type := {
  chainID : string;
  initialHeight : Z;
  cfg : StateSyncConfig;
  tempDir : string;
  peers : list NodeID;          (* the peerList, oldest first *)
  mtx : RWMutex;
  r_syncer : option syncer;
  providers : gmap NodeID BlockProvider;
  stateProvider : option StateProvider
}.

Definition set_peers (ps : list NodeID) (r : Reactor) : Reactor :=
  {| chainID := chainID r; initialHeight := initialHeight r; cfg := cfg r;
     tempDir := tempDir r; peers := ps; mtx := mtx r; r_syncer := r_syncer r;
     providers := providers r; stateProvider := stateProvider r |}.

Definition set_mtx (m : RWMutex) (r : Reactor) : Reactor :=
  {| chainID := chainID r; initialHeight := initialHeight r; cfg := cfg r;
     tempDir := tempDir r; peers := peers r; mtx := m; r_syncer := r_syncer r;
     providers := providers r; stateProvider := stateProvider r |}.

Definition set_syncer (s : option syncer) (r : Reactor) : Reactor :=
  {| chainID := chainID r; initialHeight := initialHeight r; cfg := cfg r;
     tempDir := tempDir r; peers := peers r; mtx := mtx r; r_syncer := s;
     providers := providers r; stateProvider := stateProvider r |}.

Definition set_providers (ps : gmap NodeID BlockProvider) (r : Reactor) : Reactor :=
  {| chainID := chainID r; initialHeight := initialHeight r; cfg := cfg r;
     tempDir := tempDir r; peers := peers r; mtx := mtx r; r_syncer := r_syncer r;
     providers := ps; stateProvider := stateProvider r |}.

Definition set_stateProvider (sp : option StateProvider) (r : Reactor) : Reactor :=
  {| chainID := chainID r; initialHeight := initialHeight r; cfg := cfg r;
     tempDir := tempDir r; peers := peers r; mtx := mtx r; r_syncer := r_syncer r;
     providers := providers r; stateProvider := sp |}.

(** ** Calls on collaborators, in the order they are made *)

Inductive Effect : Type :=
| snapshotCh_Out (e : Envelope)
| chunkCh_Out (e : Envelope)
| blockCh_Out (e : Envelope)
| paramsCh_Out (e : Envelope)
| blockCh_Error (pe : PeerError)
| conn_ListSnapshotsSync
| conn_LoadSnapshotChunkSync (req : RequestLoadSnapshotChunk)
| syncer_SyncAny (discoveryTime : Z)
| syncer_AddSnapshot (peer : NodeID) (s : snapshot)
| syncer_AddChunk (c : chunk)
| syncer_AddPeer (peer : NodeID)
| syncer_RemovePeer (peer : NodeID)
| go_addProvider (p : BlockProvider)
| paramsRecvCh_send (cp : ConsensusParams)
| NewP2PStateProvider (chain : string) (initial : Z) (ps : list BlockProvider)
| NewRPCStateProvider (chain : string) (initial : Z) (servers : list string)
| stateStore_Bootstrap (st : State)
| blockStore_SaveSeenCommit (height : Z) (c : Commit)
| blockStore_SaveSignedHeader (sh : SignedHeader) (trusted : BlockID)
| stateStore_SaveValidatorSets (lower upper : Z) (vals : option ValidatorSet)
| newBlockQueue (start stop initial : Z) (stopTime : Time) (maxRetries : Z)
| queue_retry (height : Z)
| queue_add (resp : lightBlockResponse)
| queue_success (height : Z)
| queue_close
| dispatcher_LightBlock (height : Z) (peer : NodeID)
| time_Sleep (d : Z).

Record World : Type := {
  reactor : Reactor;
  trace : list Effect
}.

(** ** Sequential programs over the world *)

Inductive Res (A : Type) : Type :=
| Ret (a : A) (w : World)
| Blocked (w : World)              (* waits for ever in world [w] *)
| Fatal (msg : string) (w : World) (* runtime fatal error *).

Definition M (A : Type) : Type := World -> Res A.

End Data.

Arguments Ret {_ _} _ _.
Arguments Blocked {_ _} _.
Arguments Fatal {_ _} _ _.

Section Monad.
Context `{ExternTypes}.

Definition ret {A} (a : A) : M A := fun w => Ret a w.

Definition bind {A B} (m : M A) (k : A -> M B) : M B :=
  fun w =>
    match m w with
    | Ret a w' => k a w'
    | Blocked w' => Blocked w'
    | Fatal msg w' => Fatal msg w'
    end.

Definition getReactor : M Reactor := fun w => Ret (reactor w) w.

Definition modifyReactor (f : Reactor -> Reactor) : M unit :=
  fun w => Ret tt {| reactor := f (reactor w); trace := trace w |}.

Definition emit (e : Effect) : M unit :=
  fun w => Ret tt {| reactor := reactor w; trace := trace w ++ [e] |}.

Definition block {A} : M A := fun w => Blocked w.

Definition fatal {A} (msg : string) : M A := fun w => Fatal msg w.

#[global] Instance M_ret : MRet M := @ret.
#[global] Instance M_bind : MBind M := fun A B k m => bind m k.
End Monad.


(** The functions of imported packages the reactor calls on those types.
    [sort_Slice less l] is the slice [sort.Slice] leaves behind. *)
Class ExternOps `{ExternTypes} : Type := {
  Time_zero : Time;                                   (* time.Time{} *)
  Time_Add : Time -> Z -> Time;                       (* Time.Add(d) *)
  Header_Hash : Header -> bytes;                      (* h.Hash() *)
  LightBlock_ValidateBasic : LightBlock -> string -> option error;
  sort_Slice : (abci_Snapshot -> abci_Snapshot -> bool) ->
               list abci_Snapshot -> list abci_Snapshot
}.

(** ** The reactor mutex *)

Section Mutex.
Context `{ExternTypes}.

Definition mtx_Lock : M unit :=
  r ← getReactor;
  match mtx r with
  | Unlocked => modifyReactor (set_mtx WLocked)
  | _ => block
  end.

Definition mtx_Unlock : M unit :=
  r ← getReactor;
  match mtx r with
  | WLocked => modifyReactor (set_mtx Unlocked)
  | _ => fatal "sync: Unlock of unlocked RWMutex"
  end.

Definition mtx_RLock : M unit :=
  r ← getReactor;
  match mtx r with
  | Unlocked => modifyReactor (set_mtx (RLocked 1))
  | RLocked n => modifyReactor (set_mtx (RLocked (Pos.succ n)))
  | WLocked => block
  end.

Definition mtx_RUnlock : M unit :=
  r ← getReactor;
  match mtx r with
  | RLocked 1 => modifyReactor (set_mtx Unlocked)
  | RLocked n => modifyReactor (set_mtx (RLocked (Pos.pred n)))
  | _ => fatal "sync: RUnlock of unlocked RWMutex"
  end.
End Mutex.

(** ** The peer list *)

Section PeerList.
Context `{ExternTypes}.

(** Modelled from the spec: the peer list (peers.go) is not among the
    sources.  [Append] adds at the back and keeps duplicates. *)
Definition peerList_Append (p : NodeID) (l : list NodeID) : list NodeID := l ++ [p].

(** Modelled from the spec: [Remove] of the missing peer list deletes every
    occurrence of the id. *)
Definition peerList_Remove (p : NodeID) (l : list NodeID) : list NodeID :=
  filter (fun q => q ≠ p) l.

Definition peers_Append (p : NodeID) : M unit :=
  r ← getReactor; modifyReactor (set_peers (peerList_Append p (peers r))).

Definition peers_Remove (p : NodeID) : M unit :=
  r ← getReactor; modifyReactor (set_peers (peerList_Remove p (peers r))).

(** Modelled from the spec: [Pop] of the missing peer list removes and
    returns the oldest id; it waits while the list is empty and gives the
    empty id once the context is cancelled. *)
Definition peers_Pop (ctxCancelled : bool) : M NodeID :=
  r ← getReactor;
  match peers r with
  | p :: ps => modifyReactor (set_peers ps);; mret p
  | [] => if ctxCancelled then mret ""%string else block
  end.

(** Modelled from the spec: [Len] of the missing peer list counts the ids,
    duplicates included. *)
Definition peers_Len : M Z :=
  r ← getReactor; mret (Z.of_nat (length (peers r))).
End PeerList.

(** ** Backfill *)

Section Backfill.
Context `{ExternOps}.

(** [lb.Hash()] is the method of the embedded header *)
Definition LightBlock_Hash (lb : LightBlock) : bytes := Header_Hash (lb_Header lb).

Definition sleepTime : Z := 1 * Channels.time_Second.

(** *** Fetch workers *)

(** What one iteration of a worker meets: whether the context is already
    cancelled when it pops a peer, and what [dispatcher.LightBlock]
    returns. *)
Record fetchOutcome : Type := {
  fo_ctxCancelled : bool;
  fo_lb : option LightBlock;
  fo_err : option error
}.

Inductive loopCtl : Type := Continue | Return.

(** the body of [case height := <-queue.nextHeight()] *)
Definition fetchIteration (chainID_ : string) (height : Z) (o : fetchOutcome)
  : M loopCtl :=
  peer ← peers_Pop (fo_ctxCancelled o);
  emit (dispatcher_LightBlock height peer);;
  peers_Append peer;;
  if errors_Is (fo_err o) context_Canceled then mret Return
  else
    match fo_err o with
    | Some err =>
        emit (queue_retry height);;
        (if errors_Is (Some err) errNoConnectedPeers
         then emit (time_Sleep sleepTime)
         else mret tt);;
        mret Continue
    | None =>
        match fo_lb o with
        | None =>
            emit (queue_retry height);;
            peers_Remove peer;;
            mret Continue
        | Some lb =>
            let err := LightBlock_ValidateBasic lb chainID_ in
            if bool_decide (err ≠ None) || bool_decide (lb_Height lb ≠ height)
            then
              emit (queue_retry height);;
              emit (blockCh_Error
                      {| pe_NodeID := peer;
                         pe_Err := wrapf "received invalid light block: " err |});;
              mret Continue
            else
              emit (queue_add {| resp_block := lb; resp_peer := peer |});;
              mret Continue
        end
    end.

(** what a worker's [select] delivers *)
Inductive fetchEvent : Type :=
| fetch_nextHeight (height : Z) (o : fetchOutcome)
| fetch_queueDone.

Fixpoint fetchWorker (chainID_ : string) (sched : list fetchEvent) : M unit :=
  match sched with
  | [] => block
  | fetch_queueDone :: _ => mret tt
  | fetch_nextHeight height o :: rest =>
      c ← fetchIteration chainID_ height o;
      match c with
      | Return => mret tt
      | Continue => fetchWorker chainID_ rest
      end
  end.

(** *** The verifier loop *)

(** The local variables of [backfill] the loop updates. *)
Record verifier : Type := {
  trustedBlockID : BlockID;
  lastValidatorSet : option ValidatorSet;
  lastChangeHeight : Z
}.

(** What the verifier's [select] delivers, with the answers of the stores
    to the calls made while handling it. *)
Inductive verifyEvent : Type :=
| ev_closeCh
| ev_ctxDone
| ev_verifyNext (resp : lightBlockResponse)
                (saveHeaderErr saveValsErr : option error)
| ev_queueDone (queueErr : option error) (terminalHeight : Z)
               (saveValsErr : option error).

(** the condition guarding [SaveValidatorSets] in the loop *)
Definition validatorSetChanged (v : verifier) (block : LightBlock) : bool :=
  bool_decide (lastValidatorSet v ≠ None)
  && negb (bytes_Equal (hdr_ValidatorsHash (lb_Header block))
                       (hdr_NextValidatorsHash (lb_Header block))).

(** one turn of the loop: the next local variables, or the value returned *)
Definition verifyStep (v : verifier) (ev : verifyEvent)
  : M (verifier + option error) :=
  match ev with
  | ev_closeCh => emit queue_close;; mret (inr None)
  | ev_ctxDone => emit queue_close;; mret (inr None)
  | ev_verifyNext resp saveHeaderErr saveValsErr =>
      let block := resp_block resp in
      let w := bid_Hash (trustedBlockID v) in
      let g := LightBlock_Hash block in
      if negb (bytes_Equal w g) then
        emit (blockCh_Error
                {| pe_NodeID := resp_peer resp;
                   pe_Err := fmt_Errorf_v
                     "received invalid light block. Expected hash %v, got: %v"
                     [w; g] |});;
        emit (queue_retry (lb_Height block));;
        mret (inl v)
      else
        emit (blockStore_SaveSignedHeader (lb_SignedHeader block) (trustedBlockID v));;
        match saveHeaderErr with
        | Some err => mret (inr (Some err))
        | None =>
            r ← (if validatorSetChanged v block then
                   emit (stateStore_SaveValidatorSets
                           (Int64.add (lb_Height block) 1)
                           (lastChangeHeight v) (lastValidatorSet v));;
                   match saveValsErr with
                   | Some err => mret (inr err)
                   | None => mret (inl (lb_Height block))
                   end
                 else mret (inl (lastChangeHeight v)));
            match r with
            | inr err => mret (inr (Some err))
            | inl lastChange =>
                emit (queue_success (lb_Height block));;
                mret (inl {| trustedBlockID := lb_LastBlockID block;
                             lastValidatorSet := lb_ValidatorSet block;
                             lastChangeHeight := lastChange |})
            end
        end
  | ev_queueDone queueErr terminalHeight saveValsErr =>
      match queueErr with
      | Some err => mret (inr (Some err))
      | None =>
          emit (stateStore_SaveValidatorSets
                  terminalHeight (lastChangeHeight v) (lastValidatorSet v));;
          mret (inr saveValsErr)
      end
  end.

Fixpoint verifyLoop (sched : list verifyEvent) (v : verifier) : M (option error) :=
  match sched with
  | [] => block
  | ev :: rest =>
      r ← verifyStep v ev;
      match r with
      | inl v' => verifyLoop rest v'
      | inr result => mret result
      end
  end.

(** [backfill] on the caller's goroutine: the queue is created, the
    workers are started (each runs [fetchWorker]) and the caller verifies. *)
Definition backfill (sched : list verifyEvent) (chainID_ : string)
    (startHeight stopHeight initialHeight_ : Z)
    (trusted : BlockID) (stopTime : Time) : M (option error) :=
  emit (newBlockQueue startHeight stopHeight initialHeight_ stopTime
                      Channels.maxLightBlockRequestRetries);;
  verifyLoop sched {| trustedBlockID := trusted;
                      lastValidatorSet := None;
                      lastChangeHeight := startHeight |}.

Definition Backfill (sched : list verifyEvent) (state : State) : M (option error) :=
  let params := cp_Evidence (st_ConsensusParams state) in
  let stopHeight := Int64.sub (st_LastBlockHeight state) (MaxAgeNumBlocks params) in
  let stopTime := Time_Add (st_LastBlockTime state) (Int64.neg (MaxAgeDuration params)) in
  if bool_decide (stopHeight < st_InitialHeight state) then
    backfill sched (st_ChainID state) (st_LastBlockHeight state)
             (st_InitialHeight state) (st_InitialHeight state)
             (st_LastBlockID state) (st_LastBlockTime state)
  else
    backfill sched (st_ChainID state) (st_LastBlockHeight state)
             stopHeight (st_InitialHeight state)
             (st_LastBlockID state) stopTime.
End Backfill.

(** ** Serving snapshots and chunks, receiving them *)

Section Handlers.
Context `{ExternOps}.

(** the comparison [recentSnapshots] hands to [sort.Slice] *)
Definition snapshotLess (a b : abci_Snapshot) : bool :=
  if bool_decide (as_Height a > as_Height b) then true
  else if bool_decide (as_Height a = as_Height b)
          && bool_decide (as_Format a > as_Format b) then true
  else false.

Definition toSnapshot (s : abci_Snapshot) : snapshot :=
  {| snap_Height := as_Height s; snap_Format := as_Format s;
     snap_Chunks := as_Chunks s; snap_Hash := as_Hash s;
     snap_Metadata := as_Metadata s |}.

(** the [for i, s := range resp.Snapshots] loop of [recentSnapshots] *)
Fixpoint collectRecent (i : Z) (l : list abci_Snapshot) (snapshots : list snapshot)
  : list snapshot :=
  match l with
  | [] => snapshots
  | s :: rest =>
      if bool_decide (i >= Channels.recentSnapshots) then snapshots
      else collectRecent (i + 1) rest (snapshots ++ [toSnapshot s])
  end.

(** [recentSnapshots(n)]; [listed] is what [ListSnapshotsSync] returns.
    The argument [n] only sizes the result's capacity. *)
Definition recentSnapshots (listed : error + list abci_Snapshot) (n : Z)
  : M (list snapshot * option error) :=
  emit conn_ListSnapshotsSync;;
  match listed with
  | inl err => mret ([], Some err)
  | inr snaps => mret (collectRecent 0 (sort_Slice snapshotLess snaps) [], None)
  end.

Definition snapshotsResponseFor (to : NodeID) (s : snapshot) : Envelope :=
  {| env_From := ""; env_To := to; env_Broadcast := false;
     env_Message := SnapshotsResponse (snap_Height s) (snap_Format s)
                      (snap_Chunks s) (snap_Hash s) (snap_Metadata s) |}.

Fixpoint advertise (to : NodeID) (snapshots : list snapshot) : M unit :=
  match snapshots with
  | [] => mret tt
  | s :: rest => emit (snapshotCh_Out (snapshotsResponseFor to s));; advertise to rest
  end.

Definition unknownMessage : error :=
  fmt_Errorf_v "received unknown message: %T" [].

(** [handleSnapshotMessage]; [listed] answers [ListSnapshotsSync] and
    [addErr] is the error of [syncer.AddSnapshot] *)
Definition handleSnapshotMessage (listed : error + list abci_Snapshot)
    (addErr : option error) (envelope : Envelope) : M (option error) :=
  match env_Message envelope with
  | SnapshotsRequest =>
      res ← recentSnapshots listed Channels.recentSnapshots;
      match res.2 with
      | Some _ => mret None
      | None => advertise (env_From envelope) res.1;; mret None
      end
  | SnapshotsResponse height format chunks hash metadata =>
      mtx_RLock;;
      r ← getReactor;
      match r_syncer r with
      | None => mtx_RUnlock;; mret None
      | Some _ =>
          emit (syncer_AddSnapshot (env_From envelope)
                  {| snap_Height := height; snap_Format := format;
                     snap_Chunks := chunks; snap_Hash := hash;
                     snap_Metadata := metadata |});;
          match addErr with
          | Some _ => mtx_RUnlock;; mret None
          | None => mtx_RUnlock;; mret None
          end
      end
  | _ => mret (Some unknownMessage)
  end.

(** [handleChunkMessage]; [loaded] answers [LoadSnapshotChunkSync] (the
    chunk of the response, nil or not) and [addErr] is the error of
    [syncer.AddChunk] *)
Definition handleChunkMessage (loaded : error + option bytes)
    (addErr : option error) (envelope : Envelope) : M (option error) :=
  match env_Message envelope with
  | ChunkRequest height format index =>
      emit (conn_LoadSnapshotChunkSync
              {| req_Height := height; req_Format := format; req_Chunk := index |});;
      match loaded with
      | inl _ => mret None
      | inr respChunk =>
          emit (chunkCh_Out
                  {| env_From := ""; env_To := env_From envelope;
                     env_Broadcast := false;
                     env_Message :=
                       ChunkResponse height format index respChunk
                                     (bool_decide (respChunk = None)) |});;
          mret None
      end
  | ChunkResponse height format index chunk_ missing =>
      mtx_RLock;;
      r ← getReactor;
      match r_syncer r with
      | None => mtx_RUnlock;; mret None
      | Some _ =>
          emit (syncer_AddChunk
                  {| chunk_Height := height; chunk_Format := format;
                     chunk_Index := index; chunk_Chunk := chunk_;
                     chunk_Sender := env_From envelope |});;
          match addErr with
          | Some _ => mtx_RUnlock;; mret None
          | None => mtx_RUnlock;; mret None
          end
      end
  | _ => mret (Some unknownMessage)
  end.

(** the [ParamsResponse] case of [handleParamsMessage]; [ready] tells
    whether the provider's receive channel accepts a value *)
Definition handleParamsResponse (ready : bool) (cp : ConsensusParams) : M (option error) :=
  mtx_RLock;;
  r ← getReactor;
  match stateProvider r with
  | Some (stateProviderP2P _) =>
      (if ready then emit (paramsRecvCh_send cp) else mret tt);;
      mtx_RUnlock;; mret None
  | _ => mtx_RUnlock;; mret None
  end.

(** *** Peer updates *)

Inductive PeerStatus : Type := PeerStatusUp | PeerStatusDown | PeerStatusOther.

Record PeerUpdate : Type := {
  pu_NodeID : NodeID;
  pu_Status : PeerStatus
}.

Definition NewBlockProvider (peer : NodeID) (chainID_ : string) : BlockProvider :=
  {| bp_peer := peer; bp_chainID := chainID_ |}.

Definition processPeerUpdate (peerUpdate : PeerUpdate) : M unit :=
  match pu_Status peerUpdate with
  | PeerStatusUp => peers_Append (pu_NodeID peerUpdate)
  | PeerStatusDown => peers_Remove (pu_NodeID peerUpdate)
  | PeerStatusOther => mret tt
  end;;
  mtx_Lock;;
  r ← getReactor;
  match r_syncer r with
  | None => mtx_Unlock;; mret tt
  | Some _ =>
      match pu_Status peerUpdate with
      | PeerStatusUp =>
          let newProvider := NewBlockProvider (pu_NodeID peerUpdate) (chainID r) in
          modifyReactor (set_providers (<[pu_NodeID peerUpdate := newProvider]> (providers r)));;
          emit (syncer_AddPeer (pu_NodeID peerUpdate));;
          match stateProvider r with
          | Some (stateProviderP2P _) => emit (go_addProvider newProvider)
          | _ => mret tt
          end
      | PeerStatusDown =>
          modifyReactor (set_providers (delete (pu_NodeID peerUpdate) (providers r)));;
          emit (syncer_RemovePeer (pu_NodeID peerUpdate))
      | PeerStatusOther => mret tt
      end;;
      mtx_Unlock
  end.
End Handlers.

(** ** The top-level [Sync] *)

Section Sync.
Context `{ExternOps}.

(** what [waitForEnoughPeers] meets at each turn of its [select]: the
    context is done, or the ticker fires while the peer list, which the
    peer-update goroutine maintains, holds [peersNow] *)
Inductive waitEvent : Type :=
| wait_ctxDone
| wait_tick (peersNow : list NodeID).

Fixpoint waitForEnoughPeers (sched : list waitEvent) (numPeers : Z) : M unit :=
  match sched with
  | [] => block
  | wait_ctxDone :: _ => mret tt
  | wait_tick peersNow :: rest =>
      modifyReactor (set_peers peersNow);;
      n ← peers_Len;
      if bool_decide (n >= numPeers) then mret tt
      else waitForEnoughPeers rest numPeers
  end.

(** the answers of the collaborators during one call of [Sync] *)
Record SyncEnv : Type := {
  se_wait : list waitEvent;
  (** the two results of [NewP2PStateProvider] or [NewRPCStateProvider] *)
  se_newStateProvider : option StateProvider * option error;
  (** how often [SyncAny] calls the request hook, and its three results *)
  se_hookCalls : nat;
  se_SyncAny : State * Commit * option error;
  se_Bootstrap : option error;
  se_SaveSeenCommit : option error;
  se_backfill : list verifyEvent
}.

Definition initStateProvider (made : option StateProvider * option error)
    (chainID_ : string) (initialHeight_ : Z) : M (option error) :=
  r ← getReactor;
  if cfg_UseP2P (cfg r) then
    let providers_ := (fun p => NewBlockProvider p chainID_) <$> peers r in
    emit (NewP2PStateProvider chainID_ initialHeight_ providers_);;
    modifyReactor (set_stateProvider made.1);;
    match made.2 with
    | Some err =>
        mret (Some (fmt_Errorf_w "failed to initialize P2P state provider: " err))
    | None => mret None
    end
  else
    emit (NewRPCStateProvider chainID_ initialHeight_ (cfg_RPCServers (cfg r)));;
    modifyReactor (set_stateProvider made.1);;
    match made.2 with
    | Some err =>
        mret (Some (fmt_Errorf_w "failed to initialize RPC state provider: " err))
    | None => mret None
    end.

Definition newSyncer (r : Reactor) : syncer :=
  {| syncer_cfg := cfg r; syncer_stateProvider := stateProvider r;
     syncer_tempDir := tempDir r |}.

Definition requestSnapshotsHook : M unit :=
  emit (snapshotCh_Out {| env_From := ""; env_To := ""; env_Broadcast := true;
                          env_Message := SnapshotsRequest |}).

Fixpoint times (n : nat) (m : M unit) : M unit :=
  match n with
  | O => mret tt
  | S k => m;; times k m
  end.

Definition SyncAny (env : SyncEnv) (discoveryTime : Z) (hook : M unit)
  : M (State * Commit * option error) :=
  emit (syncer_SyncAny discoveryTime);;
  times (se_hookCalls env) hook;;
  mret (se_SyncAny env).

(** [sm.State{}] *)
Definition emptyState : State :=
  {| st_ChainID := ""; st_InitialHeight := 0; st_LastBlockHeight := 0;
     st_LastBlockID := {| bid_Hash := [];
                          bid_PartSetHeader := {| psh_Total := 0; psh_Hash := [] |} |};
     st_LastBlockTime := Time_zero;
     st_ConsensusParams :=
       {| cp_Evidence := {| MaxAgeNumBlocks := 0; MaxAgeDuration := 0 |} |} |}.

(** [Sync] from the point where the deferred reset is registered *)
Definition syncAndBootstrap (env : SyncEnv) : M (State * option error) :=
  r ← getReactor;
  res ← SyncAny env (cfg_DiscoveryTime (cfg r)) requestSnapshotsHook;
  let '(state, commit, err) := res in
  match err with
  | Some e => mret (emptyState, Some e)
  | None =>
      emit (stateStore_Bootstrap state);;
      match se_Bootstrap env with
      | Some e =>
          mret (emptyState,
                Some (fmt_Errorf_w "failed to bootstrap node with new state: " e))
      | None =>
          emit (blockStore_SaveSeenCommit (st_LastBlockHeight state) commit);;
          match se_SaveSeenCommit env with
          | Some e =>
              mret (emptyState,
                    Some (fmt_Errorf_w "failed to store last seen commit: " e))
          | None =>
              _ ← Backfill (se_backfill env) state;
              mret (state, None)
          end
      end
  end.

(** the deferred function of [Sync] *)
Definition resetSyncing : M unit :=
  mtx_Lock;;
  modifyReactor (set_syncer None);;
  modifyReactor (set_stateProvider None);;
  mtx_Unlock.

Definition Sync (env : SyncEnv) : M (State * option error) :=
  waitForEnoughPeers (se_wait env) 2;;
  mtx_Lock;;
  r ← getReactor;
  match r_syncer r with
  | Some _ =>
      mtx_Unlock;;
      mret (emptyState, Some (errors_New "a state sync is already in progress"))
  | None =>
      err ← initStateProvider (se_newStateProvider env) (chainID r) (initialHeight r);
      match err with
      | Some e => mret (emptyState, Some e)
      | None =>
          modifyReactor (fun r => set_syncer (Some (newSyncer r)) r);;
          mtx_Unlock;;
          res ← syncAndBootstrap env;
          resetSyncing;;
          mret res
      end
  end.
End Sync.

(** ** The validator-set rule as the specification words it

    The specification's verifier step compares the hashes of the previously
    verified block.  The loop below is [verifyLoop] with that guard, carrying
    the previously verified block along; it exists only to be compared with
    the loop of the source. *)

Section SpecWording.
Context `{ExternOps}.

Definition spec_validatorSetChanged (v : verifier) (previous : option LightBlock)
  : bool :=
  bool_decide (lastValidatorSet v ≠ None)
  && match previous with
     | Some p => negb (bytes_Equal (hdr_ValidatorsHash (lb_Header p))
                                   (hdr_NextValidatorsHash (lb_Header p)))
     | None => false
     end.

Definition spec_verifyStep (v : verifier) (previous : option LightBlock)
    (ev : verifyEvent) : M (verifier * option LightBlock + option error) :=
  match ev with
  | ev_closeCh => emit queue_close;; mret (inr None)
  | ev_ctxDone => emit queue_close;; mret (inr None)
  | ev_verifyNext resp saveHeaderErr saveValsErr =>
      let block := resp_block resp in
      let w := bid_Hash (trustedBlockID v) in
      let g := LightBlock_Hash block in
      if negb (bytes_Equal w g) then
        emit (blockCh_Error
                {| pe_NodeID := resp_peer resp;
                   pe_Err := fmt_Errorf_v
                     "received invalid light block. Expected hash %v, got: %v"
                     [w; g] |});;
        emit (queue_retry (lb_Height block));;
        mret (inl (v, previous))
      else
        emit (blockStore_SaveSignedHeader (lb_SignedHeader block) (trustedBlockID v));;
        match saveHeaderErr with
        | Some err => mret (inr (Some err))
        | None =>
            r ← (if spec_validatorSetChanged v previous then
                   emit (stateStore_SaveValidatorSets
                           (Int64.add (lb_Height block) 1)
                           (lastChangeHeight v) (lastValidatorSet v));;
                   match saveValsErr with
                   | Some err => mret (inr err)
                   | None => mret (inl (lb_Height block))
                   end
                 else mret (inl (lastChangeHeight v)));
            match r with
            | inr err => mret (inr (Some err))
            | inl lastChange =>
                emit (queue_success (lb_Height block));;
                mret (inl ({| trustedBlockID := lb_LastBlockID block;
                              lastValidatorSet := lb_ValidatorSet block;
                              lastChangeHeight := lastChange |}, Some block))
            end
        end
  | ev_queueDone queueErr terminalHeight saveValsErr =>
      match queueErr with
      | Some err => mret (inr (Some err))
      | None =>
          emit (stateStore_SaveValidatorSets
                  terminalHeight (lastChangeHeight v) (lastValidatorSet v));;
          mret (inr saveValsErr)
      end
  end.

Fixpoint spec_verifyLoop (sched : list verifyEvent) (v : verifier)
    (previous : option LightBlock) : M (option error) :=
  match sched with
  | [] => block
  | ev :: rest =>
      r ← spec_verifyStep v previous ev;
      match r with
      | inl (v', previous') => spec_verifyLoop rest v' previous'
      | inr result => mret result
      end
  end.
End SpecWording.

(** ** Observations on results *)

Section Observations.
Context `{ExternTypes}.

Definition worldOf {A} (res : Res A) : World :=
  match res with
  | Ret _ w => w
  | Blocked w => w
  | Fatal _ w => w
  end.

Definition isSaveValidatorSets (e : Effect) : bool :=
  match e with
  | stateStore_SaveValidatorSets _ _ _ => true
  | _ => false
  end.

Definition isSaveSignedHeader (e : Effect) : bool :=
  match e with
  | blockStore_SaveSignedHeader _ _ => true
  | _ => false
  end.
End Observations.

Section BackfillObservations.
Context `{ExternOps}.

(** a header handed to [SaveSignedHeader] hashes to the trusted id handed
    over with it *)
Definition persistedUnderItsHash (e : Effect) : Prop :=
  match e with
  | blockStore_SaveSignedHeader sh trusted =>
      Header_Hash (sh_Header sh) = bid_Hash trusted
  | _ => True
  end.

(** the world a step leaves behind: the reactor untouched, [effects] added *)
Definition after (w : World) (effects : list Effect) : World :=
  {| reactor := reactor w; trace := trace w ++ effects |}.
End BackfillObservations.

(** The verifier of the source and the verifier of the specification's
    wording make the same calls, whatever the packages do, on every schedule
    when started before any block is verified. *)
Definition verifier_follows_spec_wording : Prop :=
  ∀ (T : ExternTypes) (O : ExternOps) (sched : list verifyEvent)
    (trusted : BlockID) (start : Z) (w : World),
    let v := {| trustedBlockID := trusted; lastValidatorSet := None;
                lastChangeHeight := start |} in
    trace (worldOf (verifyLoop sched v w)) =
    trace (worldOf (spec_verifyLoop sched v None w)).

(** ** A concrete instance of the imported packages

    Validator sets, commits and the unread header fields are numbers, times
    are nanoseconds, the hash of a header is its validators hash followed by
    its next-validators hash, every block is well-formed for its own chain
    id, and slices are sorted by merging. *)

Module Example.

#[export] Instance types : ExternTypes :=
  {| ValidatorSet := Z; Commit := Z; Time := Z; HeaderRest := Z |}.

Definition hash (h : Header) : bytes :=
  hdr_ValidatorsHash h ++ hdr_NextValidatorsHash h.

Definition validateBasic (lb : LightBlock) (chain : string) : option error :=
  if bool_decide (hdr_ChainID (lb_Header lb) = chain) then None
  else Some (errors_New "header belongs to another chain").

Definition notAfter (less : abci_Snapshot -> abci_Snapshot -> bool)
    (a b : abci_Snapshot) : Prop := less b a = false.

#[export] Instance notAfter_dec less a b : Decision (notAfter less a b).
Proof. unfold notAfter. apply _. Defined.

Definition sortSlice (less : abci_Snapshot -> abci_Snapshot -> bool)
    (l : list abci_Snapshot) : list abci_Snapshot :=
  merge_sort (notAfter less) l.

#[export] Instance ops : ExternOps :=
  {| Time_zero := 0; Time_Add := fun t d => t + d;
     Header_Hash := hash; LightBlock_ValidateBasic := validateBasic;
     sort_Slice := sortSlice |}.

Definition x01 : Byte.byte := Byte.x01.
Definition x02 : Byte.byte := Byte.x02.

Definition noParts : PartSetHeader := {| psh_Total := 0; psh_Hash := [] |}.

Definition mkBlock (height : Z) (last vals nextVals : bytes) (vs : Z) : LightBlock :=
  {| lb_SignedHeader :=
       {| sh_Header := {| hdr_ChainID := "test-chain"; hdr_Height := height;
                          hdr_LastBlockID := {| bid_Hash := last;
                                                bid_PartSetHeader := noParts |};
                          hdr_ValidatorsHash := vals;
                          hdr_NextValidatorsHash := nextVals;
                          hdr_rest := 0 |};
          sh_Commit := height |};
     lb_ValidatorSet := Some vs |}.

(** heights 10 and 9 of a chain whose validator set changes after height
    10 and not after height 9 *)
Definition block10 : LightBlock := mkBlock 10 [x01; x01] [x01] [x02] 7.
Definition block9 : LightBlock := mkBlock 9 [x01; x01] [x01] [x01] 7.

Definition trusted10 : BlockID :=
  {| bid_Hash := [x01; x02]; bid_PartSetHeader := noParts |}.

Definition config : StateSyncConfig :=
  {| cfg_UseP2P := true; cfg_RPCServers := []; cfg_TrustPeriod := 0;
     cfg_TrustHeight := 0; cfg_TrustHash := []; cfg_DiscoveryTime := 0;
     cfg_Fetchers := 4 |}.

Definition idle : Reactor :=
  {| chainID := "test-chain"; initialHeight := 1; cfg := config; tempDir := "";
     peers := ["a"; "b"]; mtx := Unlocked; r_syncer := None;
     providers := ∅; stateProvider := None |}.

Definition world0 : World := {| reactor := idle; trace := [] |}.

Definition verifier10 : verifier :=
  {| trustedBlockID := trusted10; lastValidatorSet := None; lastChangeHeight := 10 |}.

Definition twoBlocks : list verifyEvent :=
  [ ev_verifyNext {| resp_block := block10; resp_peer := "a" |} None None;
    ev_verifyNext {| resp_block := block9; resp_peer := "b" |} None None ].

Definition state10 : State :=
  {| st_ChainID := "test-chain"; st_InitialHeight := 1; st_LastBlockHeight := 10;
     st_LastBlockID := trusted10; st_LastBlockTime := 1000;
     st_ConsensusParams :=
       {| cp_Evidence := {| MaxAgeNumBlocks := 100000;
                            MaxAgeDuration := 172800000000000 |} |} |}.

Definition retriesExhausted : error := errors_New "max retries exceeded".

Definition p2pProvider : StateProvider :=
  stateProviderP2P [ {| bp_peer := "a"; bp_chainID := "test-chain" |};
                     {| bp_peer := "b"; bp_chainID := "test-chain" |} ].

(** every step succeeds, then the queue of the backfill gives up *)
Definition envBackfillFails : SyncEnv :=
  {| se_wait := [wait_tick ["a"; "b"]];
     se_newStateProvider := (Some p2pProvider, None);
     se_hookCalls := 1;
     se_SyncAny := (state10, 3, None);
     se_Bootstrap := None;
     se_SaveSeenCommit := None;
     se_backfill := [ev_queueDone (Some retriesExhausted) 0 None] |}.

(** the state provider cannot be built *)
Definition envInitFails : SyncEnv :=
  {| se_wait := [wait_tick ["a"; "b"]];
     se_newStateProvider := (None, Some (errors_New "no witnesses connected"));
     se_hookCalls := 0;
     se_SyncAny := (state10, 3, None);
     se_Bootstrap := None;
     se_SaveSeenCommit := None;
     se_backfill := [] |}.

Definition waited : World :=
  {| reactor := set_peers ["a"; "b"] idle; trace := [] |}.

Definition running : syncer :=
  {| syncer_cfg := config; syncer_stateProvider := Some p2pProvider;
     syncer_tempDir := "" |}.

Definition syncing : World :=
  {| reactor := set_stateProvider (Some p2pProvider) (set_syncer (Some running) idle);
     trace := [] |}.

Definition syncingWaited : World :=
  {| reactor := set_peers ["a"; "b"] (reactor syncing); trace := [] |}.

Definition chunkRequest : Envelope :=
  {| env_From := "a"; env_To := ""; env_Broadcast := false;
     env_Message := ChunkRequest 5 1 0 |}.

Definition snapshotsRequest : Envelope :=
  {| env_From := "a"; env_To := ""; env_Broadcast := false;
     env_Message := SnapshotsRequest |}.

Definition mkSnapshot (height format : Z) : abci_Snapshot :=
  {| as_Height := height; as_Format := format; as_Chunks := 1;
     as_Hash := [x01]; as_Metadata := [] |}.

Definition listed : list abci_Snapshot :=
  [mkSnapshot 1 1; mkSnapshot 2 1; mkSnapshot 2 2].

Definition fetched10 : fetchOutcome :=
  {| fo_ctxCancelled := false; fo_lb := Some block10; fo_err := None |}.

Definition popped : World :=
  {| reactor := set_peers ["b"] idle; trace := [] |}.

Definition verifier9 : verifier :=
  {| trustedBlockID := lb_LastBlockID block10; lastValidatorSet := Some 7;
     lastChangeHeight := 10 |}.

(** height 8 of a chain whose validator set changes after height 8 *)
Definition block8 : LightBlock := mkBlock 8 [x02; x02] [x01] [x02] 5.

Definition verifier8 : verifier :=
  {| trustedBlockID := {| bid_Hash := [x01; x02]; bid_PartSetHeader := noParts |};
     lastValidatorSet := Some 7; lastChangeHeight := 10 |}.

End Example.


(** ** The order of advertised snapshots *)

Section SnapshotOrder.
Context `{ExternOps}.

(** [a] is at least as desirable as [b]: higher height, or the same height
    and a format at least as high *)
Definition snapshotGe (a b : abci_Snapshot) : Prop :=
  as_Height a > as_Height b
  ∨ (as_Height a = as_Height b ∧ as_Format a >= as_Format b).

(** What [sort.Slice] guarantees for the comparison of [recentSnapshots]:
    the slice is rearranged, and afterwards no element is less than one
    before it.  The sort is not stable. *)
Class SortSliceSpec : Prop := {
  sort_Slice_Permutation :
    ∀ less l, sort_Slice less l ≡ₚ l;
  sort_Slice_Sorted :
    ∀ l, Sorted (fun a b => snapshotLess b a = false) (sort_Slice snapshotLess l)
}.
End SnapshotOrder.


(** ** Serving light blocks and consensus parameters *)

Section Stores.
Context `{ExternOps}.

(** Go's conversion [int64(x)] of a [uint64] *)
Definition int64_of_uint64 (z : Z) : Z := Int64.wrap z.

(** the field of [types.BlockMeta] the reactor reads *)
Record BlockMeta : Type := {
  bm_Header : Header
}.

(** What the block store and the state store answer to the reads of the
    reactor: a nil pointer is [None], and the two results of
    [LoadValidators] and [LoadConsensusParams] are kept as a pair. *)
Record Stores : Type := {
  LoadBlockMeta : Z -> option BlockMeta;
  LoadBlockCommit : Z -> option Commit;
  LoadValidators : Z -> option ValidatorSet * option error;
  LoadConsensusParams : Z -> ConsensusParams * option error
}.

Definition fetchLightBlock (stores : Stores) (height : Z)
  : option LightBlock * option error :=
  let h := int64_of_uint64 height in
  match LoadBlockMeta stores h with
  | None => (None, None)
  | Some blockMeta =>
      match LoadBlockCommit stores h with
      | None => (None, None)
      | Some commit =>
          let vals := (LoadValidators stores h).1 in
          match (LoadValidators stores h).2 with
          | Some err => (None, Some err)
          | None =>
              match vals with
              | None => (None, None)
              | Some _ =>
                  (Some {| lb_SignedHeader :=
                             {| sh_Header := bm_Header blockMeta;
                                sh_Commit := commit |};
                           lb_ValidatorSet := vals |}, None)
              end
          end
      end
  end.

Definition lightBlockResponseFor (to : NodeID) (lb : option LightBlock) : Envelope :=
  {| env_From := ""; env_To := to; env_Broadcast := false;
     env_Message := LightBlockResponse lb |}.

(** the [LightBlockRequest] case of [handleLightBlockMessage]; [toProtoErr]
    is the error of [lb.ToProto()], whose other result is sent as it is *)
Definition handleLightBlockRequest (stores : Stores)
    (toProtoErr : LightBlock -> option error)
    (envelope : Envelope) (height : Z) : M (option error) :=
  let res := fetchLightBlock stores height in
  match res.2 with
  | Some err => mret (Some err)
  | None =>
      match res.1 with
      | None =>
          emit (blockCh_Out (lightBlockResponseFor (env_From envelope) None));;
          mret None
      | Some lb =>
          match toProtoErr lb with
          | Some _ => mret None
          | None =>
              emit (blockCh_Out (lightBlockResponseFor (env_From envelope) (Some lb)));;
              mret None
          end
      end
  end.

(** [handleParamsMessage]; [ready] tells whether the provider's receive
    channel accepts a value.  The conversions between [types.ConsensusParams]
    and its proto form are left out. *)
Definition handleParamsMessage (stores : Stores) (ready : bool)
    (envelope : Envelope) : M (option error) :=
  match env_Message envelope with
  | ParamsRequest height =>
      let res := LoadConsensusParams stores (int64_of_uint64 height) in
      match res.2 with
      | Some _ => mret None
      | None =>
          emit (paramsCh_Out
                  {| env_From := ""; env_To := env_From envelope;
                     env_Broadcast := false;
                     env_Message := ParamsResponse height res.1 |});;
          mret None
      end
  | ParamsResponse height cp => handleParamsResponse ready cp
  | _ => mret (Some unknownMessage)
  end.
End Stores.

(** ** What a trace holds *)

Section TraceObservations.
Context `{ExternOps}.

(** the headers handed to [SaveSignedHeader], with the trusted ids *)
Fixpoint savedHeaders (l : list Effect) : list (SignedHeader * BlockID) :=
  match l with
  | [] => []
  | blockStore_SaveSignedHeader sh trusted :: rest => (sh, trusted) :: savedHeaders rest
  | _ :: rest => savedHeaders rest
  end.

(** the height ranges handed to [SaveValidatorSets]: lower and upper *)
Fixpoint savedRanges (l : list Effect) : list (Z * Z) :=
  match l with
  | [] => []
  | stateStore_SaveValidatorSets lower upper _ :: rest => (lower, upper) :: savedRanges rest
  | _ :: rest => savedRanges rest
  end.

(** the blocks handed to [queue.add] *)
Fixpoint queuedBlocks (l : list Effect) : list lightBlockResponse :=
  match l with
  | [] => []
  | queue_add resp :: rest => resp :: queuedBlocks rest
  | _ :: rest => queuedBlocks rest
  end.

(** Starting from the trusted id [trusted], each header is saved under the
    id that is trusted when it arrives, hashes to it, and hands its
    [LastBlockID] on as the next trusted id. *)
Fixpoint headerChain (trusted : BlockID) (l : list (SignedHeader * BlockID)) : Prop :=
  match l with
  | [] => True
  | (sh, under) :: rest =>
      under = trusted
      ∧ Header_Hash (sh_Header sh) = bid_Hash trusted
      ∧ headerChain (hdr_LastBlockID (sh_Header sh)) rest
  end.

(** The upper bound of each range satisfies what the range before it
    expects: [expected] for the first, and for a range after
    [(lower, _)] to end right below [lower]. *)
Fixpoint rangesOK (expected : Z -> Prop) (l : list (Z * Z)) : Prop :=
  match l with
  | [] => True
  | (lower, upper) :: rest =>
      expected upper ∧ rangesOK (fun next => Int64.add next 1 = lower) rest
  end.

(** the heights a worker's schedule hands out before the worker stops
    looking: up to the first done signal *)
Fixpoint scheduledHeights (sched : list fetchEvent) : list (Z * fetchOutcome) :=
  match sched with
  | [] => []
  | fetch_queueDone :: _ => []
  | fetch_nextHeight height o :: rest => (height, o) :: scheduledHeights rest
  end.
End TraceObservations.

(** ** The inspector's RPC server configuration (rpc package) *)

Module Inspector.

(** the fields of [config.RPCConfig] that [serverRPCConfig] reads *)
Record RPCConfig : Type := {
  MaxBodyBytes : Z;               (* int64 *)
  MaxHeaderBytes : Z;             (* int *)
  TimeoutBroadcastTxCommit : Z    (* time.Duration *)
}.

(** [server.Config]: the fields [serverRPCConfig] touches and, in
    [cfg_other], the rest *)
Record Config (Other : Type) : Type := {
  cfg_MaxBodyBytes : Z;
  cfg_MaxHeaderBytes : Z;
  cfg_WriteTimeout : Z;           (* time.Duration *)
  cfg_other : Other
}.

Arguments cfg_MaxBodyBytes {_} _.
Arguments cfg_MaxHeaderBytes {_} _.
Arguments cfg_WriteTimeout {_} _.
Arguments cfg_other {_} _.

(** [serverRPCConfig]; [defaults] is what [server.DefaultConfig()] returns *)
Definition serverRPCConfig {Other : Type} (defaults : Config Other) (r : RPCConfig)
  : Config Other :=
  let cfg := {| cfg_MaxBodyBytes := MaxBodyBytes r;
                cfg_MaxHeaderBytes := MaxHeaderBytes r;
                cfg_WriteTimeout := cfg_WriteTimeout defaults;
                cfg_other := cfg_other defaults |} in
  if bool_decide (cfg_WriteTimeout cfg <= TimeoutBroadcastTxCommit r) then
    {| cfg_MaxBodyBytes := cfg_MaxBodyBytes cfg;
       cfg_MaxHeaderBytes := cfg_MaxHeaderBytes cfg;
       cfg_WriteTimeout :=
         Int64.add (TimeoutBroadcastTxCommit r) (1 * Channels.time_Second);
       cfg_other := cfg_other cfg |}
  else cfg.

End Inspector.

(** ** What a worker may add to the queue *)

Section WorkerObservations.
Context `{ExternOps}.

(** the block of [resp] is what the dispatcher returned, without error, for
    [height]; it passed [ValidateBasic] and has that height *)
Definition addedFor (chainID_ : string) (height : Z) (o : fetchOutcome)
    (resp : lightBlockResponse) : Prop :=
  fo_err o = None
  ∧ fo_lb o = Some (resp_block resp)
  ∧ LightBlock_ValidateBasic (resp_block resp) chainID_ = None
  ∧ lb_Height (resp_block resp) = height.
End WorkerObservations.

(** ** The messages of each channel *)

Section ChannelMessages.
Context `{ExternTypes}.

Definition onSnapshotChannel (m : Message) : bool :=
  match m with
  | SnapshotsRequest | SnapshotsResponse _ _ _ _ _ => true
  | _ => false
  end.

Definition onChunkChannel (m : Message) : bool :=
  match m with
  | ChunkRequest _ _ _ | ChunkResponse _ _ _ _ _ => true
  | _ => false
  end.

Definition onParamsChannel (m : Message) : bool :=
  match m with
  | ParamsRequest _ | ParamsResponse _ _ => true
  | _ => false
  end.
End ChannelMessages.

(** ** Further concrete data *)

Module Scenario.
Import Example.

(** the stores hold block 10 and nothing else, and the state store fails at
    height 11 *)
Definition stores : Stores :=
  {| LoadBlockMeta := fun k =>
       if bool_decide (k = 10) then Some {| bm_Header := lb_Header block10 |}
       else None;
     LoadBlockCommit := fun k => if bool_decide (k = 10) then Some 10 else None;
     LoadValidators := fun k =>
       if bool_decide (k = 10) then (Some 7, None)
       else if bool_decide (k = 11) then (None, Some (errors_New "store closed"))
       else (None, None);
     LoadConsensusParams := fun k =>
       ({| cp_Evidence := {| MaxAgeNumBlocks := 100000;
                             MaxAgeDuration := 172800000000000 |} |},
        if bool_decide (k = 10) then None
        else Some (errors_New "no consensus params at this height")) |}.

Definition converts (lb : LightBlock) : option error := None.

Definition lightBlockRequest : Envelope :=
  {| env_From := "a"; env_To := ""; env_Broadcast := false;
     env_Message := LightBlockRequest 10 |}.

Definition paramsRequest : Envelope :=
  {| env_From := "a"; env_To := ""; env_Broadcast := false;
     env_Message := ParamsRequest 10 |}.

Definition snapshotsResponse : Envelope :=
  {| env_From := "b"; env_To := ""; env_Broadcast := false;
     env_Message := SnapshotsResponse 2 1 4 [x01] [] |}.

(** the reactor after a failed [initStateProvider] *)
Definition leaked : World :=
  {| reactor := set_mtx WLocked idle; trace := [] |}.

Definition workerSchedule : list fetchEvent :=
  [ fetch_nextHeight 10 fetched10;
    fetch_nextHeight 9 {| fo_ctxCancelled := false; fo_lb := None; fo_err := None |};
    fetch_queueDone ].

Definition rangeSchedule : list verifyEvent :=
  [ ev_verifyNext {| resp_block := block8; resp_peer := "a" |} None None;
    ev_queueDone None 8 None ].

Definition afterTwoBlocks : World :=
  worldOf (verifyLoop twoBlocks verifier10 world0).

Definition comesUp : PeerUpdate := {| pu_NodeID := "c"; pu_Status := PeerStatusUp |}.
Definition goesDown : PeerUpdate := {| pu_NodeID := "a"; pu_Status := PeerStatusDown |}.

(** [SyncAny] succeeds and [Bootstrap] fails *)
Definition envBootstrapFails : SyncEnv :=
  {| se_wait := [wait_tick ["a"; "b"]];
     se_newStateProvider := (Some p2pProvider, None);
     se_hookCalls := 2;
     se_SyncAny := (state10, 3, None);
     se_Bootstrap := Some (errors_New "disk full");
     se_SaveSeenCommit := None;
     se_backfill := [] |}.

Definition serverDefaults : Inspector.Config unit :=
  {| Inspector.cfg_MaxBodyBytes := 1000000;
     Inspector.cfg_MaxHeaderBytes := 1048576;
     Inspector.cfg_WriteTimeout := 10000000000;
     Inspector.cfg_other := tt |}.

Definition rpcConfig : Inspector.RPCConfig :=
  {| Inspector.MaxBodyBytes := 2000000;
     Inspector.MaxHeaderBytes := 4096;
     Inspector.TimeoutBroadcastTxCommit := 30000000000 |}.

(** the context stays live and each of [ticks] ticks finds one peer *)
Definition envFewPeers (ticks : nat) : SyncEnv :=
  {| se_wait := replicate ticks (wait_tick ["a"]);
     se_newStateProvider := (Some p2pProvider, None);
     se_hookCalls := 0;
     se_SyncAny := (state10, 3, None);
     se_Bootstrap := None;
     se_SaveSeenCommit := None;
     se_backfill := [] |}.

End Scenario.

(** ** The refusal of a second sync as the specification words it

    Whenever the syncer field is set and the mutex is free, a call of
    [Sync] returns the error at once, whatever the peers and the context
    do, with the syncer and state provider fields as they were. *)
Definition Sync_refuses_immediately : Prop :=
  ∀ (T : ExternTypes) (O : ExternOps) (env : SyncEnv) (w : World) (s : syncer),
    mtx (reactor w) = Unlocked ->
    r_syncer (reactor w) = Some s ->
    ∃ w',
      Sync env w =
        Ret (emptyState, Some (errors_New "a state sync is already in progress")) w'
      ∧ r_syncer (reactor w') = Some s
      ∧ stateProvider (reactor w') = stateProvider (reactor w).

(** * Properties *)

(** ** Channel descriptors *)

(** C9: the four channel descriptors have ids 0x60 (snapshot), 0x61 (chunk),
    0x62 (light block) and 0x63 (params), priorities 6, 3, 5 and 2, maximum
    receive-message sizes 4,000,000, 16,000,000, 10,000,000 and 100,000
    bytes, receive buffer capacity 128 each, and send-queue capacities 10,
    4, 10 and 10; there is no fifth descriptor. *)
Theorem channel_descriptors :
  Channels.descriptorOf Channels.SnapshotChannel =
    Some {| Channels.ID := 0x60; Channels.Priority := 6;
            Channels.SendQueueCapacity := 10;
            Channels.RecvMessageCapacity := 4000000;
            Channels.RecvBufferCapacity := 128; Channels.MaxSendBytes := 400 |}
  ∧ Channels.descriptorOf Channels.ChunkChannel =
    Some {| Channels.ID := 0x61; Channels.Priority := 3;
            Channels.SendQueueCapacity := 4;
            Channels.RecvMessageCapacity := 16000000;
            Channels.RecvBufferCapacity := 128; Channels.MaxSendBytes := 400 |}
  ∧ Channels.descriptorOf Channels.LightBlockChannel =
    Some {| Channels.ID := 0x62; Channels.Priority := 5;
            Channels.SendQueueCapacity := 10;
            Channels.RecvMessageCapacity := 10000000;
            Channels.RecvBufferCapacity := 128; Channels.MaxSendBytes := 400 |}
  ∧ Channels.descriptorOf Channels.ParamsChannel =
    Some {| Channels.ID := 0x63; Channels.Priority := 2;
            Channels.SendQueueCapacity := 10;
            Channels.RecvMessageCapacity := 100000;
            Channels.RecvBufferCapacity := 128; Channels.MaxSendBytes := 400 |}
  ∧ Channels.SnapshotChannel = 0x60 ∧ Channels.ChunkChannel = 0x61
  ∧ Channels.LightBlockChannel = 0x62 ∧ Channels.ParamsChannel = 0x63
  ∧ size Channels.ChannelShims = 4%nat.
Proof.
  repeat split; try reflexivity.
Qed.

(** ** Running programs *)

(** unfolds the monad down to worlds *)
Ltac run_M :=
  unfold mbind, mret, M_bind, M_ret, bind, ret, emit, modifyReactor,
         getReactor, block, fatal in *;
  cbn in *.

Section Running.
Context `{ExternTypes}.

Lemma bind_Ret {A B} (m : M A) (k : A -> M B) w a w' :
  m w = Ret a w' -> (m ≫= k) w = k a w'.
Proof. intros Hm. unfold mbind, M_bind, bind. by rewrite Hm. Qed.

Lemma bind_Blocked {A B} (m : M A) (k : A -> M B) w w' :
  m w = Blocked w' -> (m ≫= k) w = Blocked w'.
Proof. intros Hm. unfold mbind, M_bind, bind. by rewrite Hm. Qed.

Lemma world_eta (w : World) : {| reactor := reactor w; trace := trace w |} = w.
Proof. by destruct w. Qed.
End Running.

(** ** Serving chunks and snapshots *)

Section Serving.
Context `{ExternOps}.

(** C8: on a [ChunkRequest] for which [LoadSnapshotChunk] succeeds, the
    reactor asks the application for that chunk and sends exactly one
    [ChunkResponse], addressed to the requesting peer, with the same height,
    format and index, the chunk the application returned, and [Missing] true
    if and only if that chunk is nil. *)
Theorem chunk_request_reply (height format index : Z) (respChunk : option bytes)
    (addErr : option error) (envelope : Envelope) (w : World) :
  env_Message envelope = ChunkRequest height format index ->
  ∃ missing : bool,
    handleChunkMessage (inr respChunk) addErr envelope w =
      Ret None
        {| reactor := reactor w;
           trace := trace w ++
             [ conn_LoadSnapshotChunkSync
                 {| req_Height := height; req_Format := format; req_Chunk := index |};
               chunkCh_Out
                 {| env_From := ""; env_To := env_From envelope;
                    env_Broadcast := false;
                    env_Message :=
                      ChunkResponse height format index respChunk missing |} ] |}
    ∧ (missing = true ↔ respChunk = None).
Proof.
  intros Hmsg. exists (bool_decide (respChunk = None)). split.
  - unfold handleChunkMessage. rewrite Hmsg. run_M.
    by rewrite <- app_assoc.
  - by rewrite bool_decide_eq_true.
Qed.

Lemma snapshotLess_false (a b : abci_Snapshot) :
  snapshotLess b a = false ↔ snapshotGe a b.
Proof.
  unfold snapshotLess, snapshotGe.
  repeat case_bool_decide; simpl; split; intros; try done; lia.
Qed.

Lemma Sorted_weaken {A} (R1 R2 : relation A) (l : list A) :
  (∀ x y, R1 x y -> R2 x y) -> Sorted R1 l -> Sorted R2 l.
Proof.
  intros HR. induction 1 as [|x l _ IH Hhd]; constructor; [done|].
  destruct Hhd; constructor. by apply HR.
Qed.

#[local] Instance snapshotGe_trans : Transitive snapshotGe.
Proof. intros a b c. unfold snapshotGe. lia. Qed.

Lemma collectRecent_take (l : list abci_Snapshot) :
  ∀ i acc, 0 <= i ->
    collectRecent i l acc =
      acc ++ (toSnapshot <$> take (Z.to_nat (Channels.recentSnapshots - i)) l).
Proof.
  unfold Channels.recentSnapshots.
  induction l as [|s l IH]; intros i acc Hi; simpl.
  - by rewrite take_nil, app_nil_r.
  - case_bool_decide as Hlim; unfold Channels.recentSnapshots in *.
    + replace (Z.to_nat (10 - i)) with 0%nat by lia. by rewrite app_nil_r.
    + rewrite IH by lia.
      replace (Z.to_nat (10 - i)) with (S (Z.to_nat (10 - (i + 1)))) by lia.
      simpl. by rewrite <- app_assoc.
Qed.

Lemma advertise_trace (to : NodeID) (l : list snapshot) :
  ∀ w, advertise to l w =
         Ret tt {| reactor := reactor w;
                   trace := trace w ++
                     ((fun s => snapshotCh_Out (snapshotsResponseFor to s)) <$> l) |}.
Proof.
  induction l as [|s l IH]; intros w; simpl.
  - by rewrite app_nil_r, world_eta.
  - run_M. rewrite IH. cbn. by rewrite <- app_assoc.
Qed.

(** C7: on a [SnapshotsRequest], when [ListSnapshots] answers with [snaps],
    the reactor sends one [SnapshotsResponse] per snapshot of [sent], each to
    the requesting peer, where [sent] holds at most 10 of the listed
    snapshots (all of them if there are fewer), in descending height and,
    among equal heights, descending format, and no listed snapshot left out
    is more desirable than one that is sent. *)
Theorem snapshots_request_reply `{!SortSliceSpec} (snaps : list abci_Snapshot)
    (addErr : option error) (envelope : Envelope) (w : World) :
  env_Message envelope = SnapshotsRequest ->
  ∃ sent rest : list abci_Snapshot,
    handleSnapshotMessage (inr snaps) addErr envelope w =
      Ret None
        {| reactor := reactor w;
           trace := trace w ++ conn_ListSnapshotsSync ::
             ((fun s => snapshotCh_Out
                 {| env_From := ""; env_To := env_From envelope;
                    env_Broadcast := false;
                    env_Message :=
                      SnapshotsResponse (as_Height s) (as_Format s) (as_Chunks s)
                                        (as_Hash s) (as_Metadata s) |}) <$> sent) |}
    ∧ sent ++ rest ≡ₚ snaps
    ∧ length sent = (10 `min` length snaps)%nat
    ∧ StronglySorted snapshotGe sent
    ∧ (∀ a b, a ∈ sent -> b ∈ rest -> snapshotGe a b).
Proof.
  intros Hmsg.
  set (sorted := sort_Slice snapshotLess snaps).
  assert (Hperm : sorted ≡ₚ snaps) by apply sort_Slice_Permutation.
  assert (Hsorted : StronglySorted snapshotGe sorted).
  { apply Sorted_StronglySorted; [apply _|].
    eapply Sorted_weaken; [|apply sort_Slice_Sorted].
    intros a b. apply snapshotLess_false. }
  exists (take 10 sorted), (drop 10 sorted).
  rewrite take_drop. repeat split.
  - unfold handleSnapshotMessage. rewrite Hmsg.
    unfold recentSnapshots. run_M.
    rewrite collectRecent_take by lia. cbn.
    rewrite advertise_trace. cbn. fold sorted.
    rewrite <- app_assoc, <- list_fmap_compose. done.
  - done.
  - rewrite length_take, (Permutation_length Hperm). done.
  - rewrite <- (take_drop 10 sorted) in Hsorted.
    by apply StronglySorted_app_1_l in Hsorted.
  - intros a b Ha Hb. rewrite <- (take_drop 10 sorted) in Hsorted.
    by eapply StronglySorted_app_1_elem_of.
Qed.
End Serving.

(** ** Backfill *)

Lemma Int64_sub_exact (a b : Z) :
  Int64.in_range (a - b) -> Int64.sub a b = a - b.
Proof.
  unfold Int64.in_range, Int64.sub, Int64.wrap, Int64.modulus,
         Int64.min_signed, Int64.max_signed.
  intros Hr. rewrite Z.mod_small; lia.
Qed.

(** heights are never negative and the maximum age is positive, so the
    subtraction in [Backfill] does not wrap on a state that passed
    validation *)
Lemma Int64_sub_heights (a b : Z) :
  0 <= a <= Int64.max_signed -> 0 <= b <= Int64.max_signed ->
  Int64.sub a b = a - b.
Proof.
  intros Ha Hb. apply Int64_sub_exact.
  unfold Int64.in_range, Int64.min_signed, Int64.max_signed in *. lia.
Qed.

Section BackfillFacts.
Context `{ExternOps}.

(** the two branches of [Backfill] as one call of [backfill] *)
Lemma Backfill_unfold (sched : list verifyEvent) (state : State) (w : World) :
  let aged := Int64.sub (st_LastBlockHeight state)
                        (MaxAgeNumBlocks (cp_Evidence (st_ConsensusParams state))) in
  Backfill sched state w =
    backfill sched (st_ChainID state) (st_LastBlockHeight state)
             (aged `max` st_InitialHeight state)
             (st_InitialHeight state) (st_LastBlockID state)
             (if bool_decide (aged < st_InitialHeight state)
              then st_LastBlockTime state
              else Time_Add (st_LastBlockTime state)
                     (Int64.neg (MaxAgeDuration (cp_Evidence (st_ConsensusParams state)))))
             w.
Proof.
  intros aged. unfold Backfill. fold aged.
  case_bool_decide as Hfloor.
  - by rewrite Z.max_r by lia.
  - by rewrite Z.max_l by lia.
Qed.

(** [backfill] creates the queue and enters the loop with no validator set
    seen and the start height as the last change *)
Lemma backfill_unfold (sched : list verifyEvent) (chainID_ : string)
    (startHeight stopHeight initialHeight_ : Z) (trusted : BlockID)
    (stopTime : Time) (w : World) :
  backfill sched chainID_ startHeight stopHeight initialHeight_ trusted stopTime w =
    verifyLoop sched
      {| trustedBlockID := trusted; lastValidatorSet := None;
         lastChangeHeight := startHeight |}
      (after w [newBlockQueue startHeight stopHeight initialHeight_ stopTime 20]).
Proof. reflexivity. Qed.

(** C3: for every state, [Backfill] creates the queue for the range that
    starts at [LastBlockHeight] and stops at the larger of
    [LastBlockHeight - MaxAgeNumBlocks] and [InitialHeight], with stop time
    [LastBlockTime - MaxAgeDuration], or [LastBlockTime] itself when the
    initial height was taken as the floor, and starts verifying with
    [LastBlockID] as the trusted block id. *)
Theorem Backfill_range (sched : list verifyEvent) (state : State) (w : World) :
  let params := cp_Evidence (st_ConsensusParams state) in
  let aged := Int64.sub (st_LastBlockHeight state) (MaxAgeNumBlocks params) in
  let stopHeight := aged `max` st_InitialHeight state in
  let stopTime :=
    if bool_decide (aged < st_InitialHeight state)
    then st_LastBlockTime state
    else Time_Add (st_LastBlockTime state) (Int64.neg (MaxAgeDuration params)) in
  (aged < st_InitialHeight state -> stopHeight = st_InitialHeight state)
  ∧ (st_InitialHeight state <= aged -> stopHeight = aged)
  ∧ Backfill sched state w =
      backfill sched (st_ChainID state) (st_LastBlockHeight state) stopHeight
               (st_InitialHeight state) (st_LastBlockID state) stopTime w
  ∧ Backfill sched state w =
      verifyLoop sched
        {| trustedBlockID := st_LastBlockID state;
           lastValidatorSet := None;
           lastChangeHeight := st_LastBlockHeight state |}
        (after w [newBlockQueue (st_LastBlockHeight state) stopHeight
                                (st_InitialHeight state) stopTime 20]).
Proof.
  intros params aged stopHeight stopTime.
  split; [unfold stopHeight; lia|]. split; [unfold stopHeight; lia|].
  pose proof (Backfill_unfold sched state w) as Heq. cbn zeta in Heq.
  fold params aged stopHeight stopTime in Heq.
  split; [exact Heq|].
  rewrite Heq. apply backfill_unfold.
Qed.

(** *** One turn of the verifier *)

Lemma verifyStep_mismatch (v : verifier) (resp : lightBlockResponse)
    (saveHeaderErr saveValsErr : option error) (w : World) :
  LightBlock_Hash (resp_block resp) ≠ bid_Hash (trustedBlockID v) ->
  verifyStep v (ev_verifyNext resp saveHeaderErr saveValsErr) w =
    Ret (inl v)
        (after w [ blockCh_Error
                     {| pe_NodeID := resp_peer resp;
                        pe_Err := fmt_Errorf_v
                          "received invalid light block. Expected hash %v, got: %v"
                          [bid_Hash (trustedBlockID v);
                           LightBlock_Hash (resp_block resp)] |};
                   queue_retry (lb_Height (resp_block resp)) ]).
Proof.
  intros Hneq. unfold verifyStep, bytes_Equal.
  rewrite bool_decide_eq_false_2 by congruence.
  run_M. unfold after. by rewrite <- app_assoc.
Qed.

Lemma verifyStep_match (v : verifier) (resp : lightBlockResponse)
    (saveValsErr : option error) (w : World) :
  LightBlock_Hash (resp_block resp) = bid_Hash (trustedBlockID v) ->
  let block := resp_block resp in
  let saveHeader :=
    blockStore_SaveSignedHeader (lb_SignedHeader block) (trustedBlockID v) in
  let saveVals :=
    stateStore_SaveValidatorSets (Int64.add (lb_Height block) 1)
                                 (lastChangeHeight v) (lastValidatorSet v) in
  verifyStep v (ev_verifyNext resp None saveValsErr) w =
    if validatorSetChanged v block then
      match saveValsErr with
      | Some err => Ret (inr (Some err)) (after w [saveHeader; saveVals])
      | None =>
          Ret (inl {| trustedBlockID := lb_LastBlockID block;
                      lastValidatorSet := lb_ValidatorSet block;
                      lastChangeHeight := lb_Height block |})
              (after w [saveHeader; saveVals; queue_success (lb_Height block)])
      end
    else
      Ret (inl {| trustedBlockID := lb_LastBlockID block;
                  lastValidatorSet := lb_ValidatorSet block;
                  lastChangeHeight := lastChangeHeight v |})
          (after w [saveHeader; queue_success (lb_Height block)]).
Proof.
  intros Heq block saveHeader saveVals. unfold verifyStep, bytes_Equal.
  rewrite bool_decide_eq_true_2 by congruence. fold block.
  destruct (validatorSetChanged v block); [destruct saveValsErr|];
    run_M; unfold after; cbn; by rewrite <- ?app_assoc.
Qed.

Lemma verifyStep_saveHeader_fails (v : verifier) (resp : lightBlockResponse)
    (err : error) (saveValsErr : option error) (w : World) :
  LightBlock_Hash (resp_block resp) = bid_Hash (trustedBlockID v) ->
  verifyStep v (ev_verifyNext resp (Some err) saveValsErr) w =
    Ret (inr (Some err))
        (after w [blockStore_SaveSignedHeader (lb_SignedHeader (resp_block resp))
                                              (trustedBlockID v)]).
Proof.
  intros Heq. unfold verifyStep, bytes_Equal.
  rewrite bool_decide_eq_true_2 by congruence. by run_M.
Qed.

(** a turn leaves the reactor alone and only adds calls *)
Lemma verifyStep_after (v : verifier) (ev : verifyEvent) (w : World) :
  ∃ r effects, verifyStep v ev w = Ret r (after w effects)
    ∧ Forall persistedUnderItsHash effects.
Proof.
  destruct ev as [| |resp saveHeaderErr saveValsErr|queueErr terminal saveValsErr].
  - eexists _, [queue_close]. split; [by run_M|]. repeat constructor.
  - eexists _, [queue_close]. split; [by run_M|]. repeat constructor.
  - destruct (decide (LightBlock_Hash (resp_block resp) = bid_Hash (trustedBlockID v)))
      as [Heq|Hneq].
    + destruct saveHeaderErr as [err|].
      * rewrite verifyStep_saveHeader_fails by done.
        eexists _, _. split; [done|]. repeat constructor. exact Heq.
      * rewrite verifyStep_match by done.
        destruct (validatorSetChanged v (resp_block resp)); [destruct saveValsErr|];
          eexists _, _; (split; [done|]); repeat constructor; exact Heq.
    + rewrite verifyStep_mismatch by done.
      eexists _, _. split; [done|]. repeat constructor.
  - destruct queueErr as [err|].
    + eexists _, []. split; [|constructor].
      run_M. unfold after. by rewrite app_nil_r, world_eta.
    + eexists _, [_]. split; [by run_M|]. repeat constructor.
Qed.

Lemma verifyLoop_after (sched : list verifyEvent) :
  ∀ v w, ∃ effects,
    worldOf (verifyLoop sched v w) = after w effects
    ∧ Forall persistedUnderItsHash effects.
Proof.
  induction sched as [|ev rest IH]; intros v w.
  - exists []. split; [|constructor].
    run_M. unfold after. by rewrite app_nil_r, world_eta.
  - destruct (verifyStep_after v ev w) as (r & effects & Hstep & Hok).
    cbn [verifyLoop]. rewrite (bind_Ret _ _ _ _ _ Hstep).
    destruct r as [v'|result].
    + destruct (IH v' (after w effects)) as (effects' & Hw & Hok').
      exists (effects ++ effects'). split.
      * rewrite Hw. unfold after. cbn. by rewrite app_assoc.
      * by apply Forall_app.
    + exists effects. split; [by run_M|done].
Qed.
End BackfillFacts.

Section VerifierClaims.
Context `{ExternOps}.

(** C1: in the verifier loop a light block whose header hash differs from
    the hash of the current trusted block id is not persisted: a [PeerError]
    naming the peer that supplied it is emitted, its height is retried and
    the trusted block id stays as it is.  A block whose hash matches is
    handed to [SaveSignedHeader] together with the trusted id; once the
    stores have accepted it the trusted id becomes the block's [LastBlockID]
    and [success(height)] is recorded.  Hence over any run of the loop, and
    of [Backfill], every header handed to [SaveSignedHeader] hashes to the
    trusted id it is saved under. *)
Theorem verifier_persists_only_trusted :
  (∀ (v : verifier) (resp : lightBlockResponse)
     (saveHeaderErr saveValsErr : option error) (w : World),
     LightBlock_Hash (resp_block resp) ≠ bid_Hash (trustedBlockID v) ->
     verifyStep v (ev_verifyNext resp saveHeaderErr saveValsErr) w =
       Ret (inl v)
           (after w [ blockCh_Error
                        {| pe_NodeID := resp_peer resp;
                           pe_Err := fmt_Errorf_v
                             "received invalid light block. Expected hash %v, got: %v"
                             [bid_Hash (trustedBlockID v);
                              LightBlock_Hash (resp_block resp)] |};
                      queue_retry (lb_Height (resp_block resp)) ]))
  ∧ (∀ (v : verifier) (resp : lightBlockResponse)
       (saveValsErr : option error) (w : World),
       LightBlock_Hash (resp_block resp) = bid_Hash (trustedBlockID v) ->
       (validatorSetChanged v (resp_block resp) = true -> saveValsErr = None) ->
       ∃ (v' : verifier) (saved : list Effect),
         verifyStep v (ev_verifyNext resp None saveValsErr) w =
           Ret (inl v')
               (after w (blockStore_SaveSignedHeader
                           (lb_SignedHeader (resp_block resp)) (trustedBlockID v)
                         :: saved ++ [queue_success (lb_Height (resp_block resp))]))
         ∧ trustedBlockID v' = lb_LastBlockID (resp_block resp)
         ∧ Forall (fun e => isSaveSignedHeader e = false) saved)
  ∧ (∀ (sched : list verifyEvent) (v : verifier) (w : World),
       Forall persistedUnderItsHash (trace w) ->
       Forall persistedUnderItsHash (trace (worldOf (verifyLoop sched v w))))
  ∧ (∀ (sched : list verifyEvent) (state : State) (w : World),
       Forall persistedUnderItsHash (trace w) ->
       Forall persistedUnderItsHash (trace (worldOf (Backfill sched state w)))).
Proof.
  split; [|split; [|split]].
  - intros. by apply verifyStep_mismatch.
  - intros v resp saveValsErr w Heq Hstores.
    rewrite verifyStep_match by done.
    destruct (validatorSetChanged v (resp_block resp)).
    + rewrite Hstores by done. eexists _, [_]. split; [done|].
      split; [done|]. by repeat constructor.
    + eexists _, []. split; [done|]. split; [done|]. constructor.
  - intros sched v w Hw.
    destruct (verifyLoop_after sched v w) as (effects & -> & Hok).
    by apply Forall_app.
  - intros sched state w Hw.
    rewrite Backfill_unfold, backfill_unfold.
    match goal with
    | |- context [verifyLoop ?s ?v ?w0] =>
        destruct (verifyLoop_after s v w0) as (effects & -> & Hok)
    end.
    cbn. apply Forall_app. split; [|done].
    apply Forall_app. split; [done|]. by repeat constructor.
Qed.

(** C2 (as the code has it): when a block that matches the trusted id has
    been saved, [SaveValidatorSets] is called exactly if a block was verified
    before it ([lastValidatorSet] is set) and the validators hash and the
    next-validators hash of the block being verified differ; the call stores
    the previous validator set over [height + 1, lastChangeHeight] and, if it
    succeeds, [lastChangeHeight] becomes that block's height; otherwise
    [lastChangeHeight] stays.  In both cases the block's validator set
    becomes the last-seen one.  When the queue completes without error a
    final [SaveValidatorSets] covers [terminal height, lastChangeHeight], and
    when it completes with an error nothing is stored. *)
Theorem validator_sets_saved_on_change :
  (∀ (v : verifier) (resp : lightBlockResponse)
     (saveValsErr : option error) (w : World),
     let block := resp_block resp in
     let saveHeader :=
       blockStore_SaveSignedHeader (lb_SignedHeader block) (trustedBlockID v) in
     let saveVals :=
       stateStore_SaveValidatorSets (Int64.add (lb_Height block) 1)
                                    (lastChangeHeight v) (lastValidatorSet v) in
     LightBlock_Hash block = bid_Hash (trustedBlockID v) ->
     lastValidatorSet v ≠ None ->
     hdr_ValidatorsHash (lb_Header block) ≠ hdr_NextValidatorsHash (lb_Header block) ->
     verifyStep v (ev_verifyNext resp None saveValsErr) w =
       match saveValsErr with
       | Some err => Ret (inr (Some err)) (after w [saveHeader; saveVals])
       | None =>
           Ret (inl {| trustedBlockID := lb_LastBlockID block;
                       lastValidatorSet := lb_ValidatorSet block;
                       lastChangeHeight := lb_Height block |})
               (after w [saveHeader; saveVals; queue_success (lb_Height block)])
       end)
  ∧ (∀ (v : verifier) (resp : lightBlockResponse)
       (saveValsErr : option error) (w : World),
       let block := resp_block resp in
       LightBlock_Hash block = bid_Hash (trustedBlockID v) ->
       lastValidatorSet v = None
       ∨ hdr_ValidatorsHash (lb_Header block) = hdr_NextValidatorsHash (lb_Header block) ->
       verifyStep v (ev_verifyNext resp None saveValsErr) w =
         Ret (inl {| trustedBlockID := lb_LastBlockID block;
                     lastValidatorSet := lb_ValidatorSet block;
                     lastChangeHeight := lastChangeHeight v |})
             (after w [ blockStore_SaveSignedHeader (lb_SignedHeader block)
                                                    (trustedBlockID v);
                        queue_success (lb_Height block) ]))
  ∧ (∀ (v : verifier) (terminalHeight : Z) (saveValsErr : option error) (w : World),
       verifyStep v (ev_queueDone None terminalHeight saveValsErr) w =
         Ret (inr saveValsErr)
             (after w [ stateStore_SaveValidatorSets terminalHeight
                          (lastChangeHeight v) (lastValidatorSet v) ]))
  ∧ (∀ (v : verifier) (err : error) (terminalHeight : Z)
       (saveValsErr : option error) (w : World),
       verifyStep v (ev_queueDone (Some err) terminalHeight saveValsErr) w =
         Ret (inr (Some err)) w).
Proof.
  split; [|split; [|split]].
  - intros v resp saveValsErr w block saveHeader saveVals Heq Hset Hdiff.
    rewrite verifyStep_match by done. fold block.
    unfold validatorSetChanged, bytes_Equal.
    rewrite bool_decide_eq_true_2, bool_decide_eq_false_2 by done. done.
  - intros v resp saveValsErr w block Heq Hsame.
    rewrite verifyStep_match by done. fold block.
    unfold validatorSetChanged, bytes_Equal.
    destruct Hsame as [Hnone|Hsame].
    + by rewrite bool_decide_eq_false_2 by (by intros ?).
    + rewrite (bool_decide_eq_true_2 _ Hsame). by rewrite andb_false_r.
  - intros. by run_M.
  - intros. by run_M.
Qed.

(** *** One iteration of a fetch worker *)

Lemma peerList_Remove_not_in (p : NodeID) (l : list NodeID) :
  p ∉ peerList_Remove p l.
Proof. unfold peerList_Remove. rewrite list_elem_of_filter. by intros [Hne _]. Qed.

Lemma peers_Pop_inv (cancelled : bool) (w w0 : World) (peer : NodeID) :
  peers_Pop cancelled w = Ret peer w0 -> trace w0 = trace w.
Proof.
  unfold peers_Pop. run_M. destruct (peers (reactor w)); [destruct cancelled|];
    intros [= <- <-]; done.
Qed.

(** C4: in an iteration of a fetch worker that popped [peer], the peer is
    appended back to the peer list after the dispatcher call whatever the
    outcome.  A context-cancellation error makes the worker return; any
    other error retries the height and leaves the peer in the list; a nil
    light block retries the height and removes the peer from the list; a
    block that fails [ValidateBasic(chainID)] or has another height than the
    requested one retries the height and reports a [PeerError] naming the
    peer; any other block is added to the queue. *)
Theorem fetch_iteration_outcomes (chainID_ : string) (height : Z)
    (o : fetchOutcome) (w w0 : World) (peer : NodeID) :
  peers_Pop (fo_ctxCancelled o) w = Ret peer w0 ->
  let back := peerList_Append peer (peers (reactor w0)) in
  let result (effects : list Effect) (ps : list NodeID) : World :=
    {| reactor := set_peers ps (reactor w0);
       trace := trace w ++ dispatcher_LightBlock height peer :: effects |} in
  peer ∈ back
  ∧ (errors_Is (fo_err o) context_Canceled = true ->
     fetchIteration chainID_ height o w = Ret Return (result [] back))
  ∧ (∀ err, fo_err o = Some err -> error_Is err context_Canceled = false ->
     fetchIteration chainID_ height o w =
       Ret Continue
           (result (queue_retry height ::
                    if error_Is err errNoConnectedPeers
                    then [time_Sleep sleepTime] else [])
                   back))
  ∧ (fo_err o = None -> fo_lb o = None ->
     fetchIteration chainID_ height o w =
       Ret Continue (result [queue_retry height] (peerList_Remove peer back))
     ∧ peer ∉ peerList_Remove peer back)
  ∧ (∀ lb, fo_err o = None -> fo_lb o = Some lb ->
     LightBlock_ValidateBasic lb chainID_ ≠ None ∨ lb_Height lb ≠ height ->
     fetchIteration chainID_ height o w =
       Ret Continue
           (result [ queue_retry height;
                     blockCh_Error
                       {| pe_NodeID := peer;
                          pe_Err := wrapf "received invalid light block: "
                                      (LightBlock_ValidateBasic lb chainID_) |} ]
                   back))
  ∧ (∀ lb, fo_err o = None -> fo_lb o = Some lb ->
     LightBlock_ValidateBasic lb chainID_ = None -> lb_Height lb = height ->
     fetchIteration chainID_ height o w =
       Ret Continue
           (result [queue_add {| resp_block := lb; resp_peer := peer |}] back)).
Proof.
  intros Hpop back result.
  pose proof (peers_Pop_inv _ _ _ _ Hpop) as Htr.
  assert (Hstart : ∀ k : NodeID -> M loopCtl,
             (peers_Pop (fo_ctxCancelled o) ≫= k) w = k peer w0)
    by (intros k; by apply bind_Ret).
  unfold fetchIteration. rewrite Hstart. clear Hstart Hpop.
  unfold result, back, peerList_Append. rewrite <- Htr.
  split; [set_solver|]. split; [|split; [|split; [|split]]].
  - intros Hc. unfold peers_Append. run_M. rewrite Hc.
    unfold peerList_Append. by rewrite <- ?app_assoc.
  - intros err Herr Hc. unfold peers_Append. run_M. rewrite Herr. cbn. rewrite Hc.
    unfold peerList_Append.
    destruct (error_Is err errNoConnectedPeers); cbn; by rewrite <- ?app_assoc.
  - intros Herr Hlb. split; [|apply peerList_Remove_not_in].
    unfold peers_Append, peers_Remove. run_M. rewrite Herr, Hlb. cbn.
    unfold peerList_Append. by rewrite <- ?app_assoc.
  - intros lb Herr Hlb Hbad. unfold peers_Append. run_M. rewrite Herr, Hlb. cbn.
    assert (bool_decide (LightBlock_ValidateBasic lb chainID_ ≠ None)
            || bool_decide (lb_Height lb ≠ height) = true) as ->.
    { apply orb_true_iff. destruct Hbad; [left|right]; by apply bool_decide_eq_true. }
    cbn. unfold peerList_Append. by rewrite <- ?app_assoc.
  - intros lb Herr Hlb Hok Hh. unfold peers_Append. run_M. rewrite Herr, Hlb. cbn.
    assert (bool_decide (LightBlock_ValidateBasic lb chainID_ ≠ None)
            || bool_decide (lb_Height lb ≠ height) = false) as ->.
    { apply orb_false_iff. split; apply bool_decide_eq_false; by intros ?. }
    cbn. unfold peerList_Append. by rewrite <- ?app_assoc.
Qed.
End VerifierClaims.

(** ** The top-level [Sync] *)

Section SyncFacts.
Context `{ExternOps}.

Lemma set_peers_eta (r : Reactor) : set_peers (peers r) r = r.
Proof. by destruct r. Qed.

(** waiting only refreshes the view of the peer list *)
Lemma waitForEnoughPeers_cases (numPeers : Z) (sched : list waitEvent) :
  ∀ w, ∃ ps,
    let w1 := {| reactor := set_peers ps (reactor w); trace := trace w |} in
    waitForEnoughPeers sched numPeers w = Ret tt w1
    ∨ waitForEnoughPeers sched numPeers w = Blocked w1.
Proof.
  induction sched as [|[|peersNow] rest IH]; intros w.
  - exists (peers (reactor w)). right. by rewrite set_peers_eta, world_eta.
  - exists (peers (reactor w)). left. by rewrite set_peers_eta, world_eta.
  - cbn [waitForEnoughPeers]. unfold peers_Len. run_M.
    case_bool_decide.
    + exists peersNow. by left.
    + destruct (IH {| reactor := set_peers peersNow (reactor w); trace := trace w |})
        as [ps Hps].
      exists ps. exact Hps.
Qed.

Lemma waitForEnoughPeers_Ret (numPeers : Z) (sched : list waitEvent) (w w1 : World) :
  waitForEnoughPeers sched numPeers w = Ret tt w1 ->
  ∃ ps, w1 = {| reactor := set_peers ps (reactor w); trace := trace w |}.
Proof.
  intros Hw. destruct (waitForEnoughPeers_cases numPeers sched w) as [ps [Hr|Hb]];
    rewrite Hw in *; [|done]. exists ps. by injection Hr.
Qed.

Lemma times_hook (n : nat) :
  ∀ w, times n requestSnapshotsHook w =
         Ret tt (after w (replicate n
                   (snapshotCh_Out {| env_From := ""; env_To := ""; env_Broadcast := true;
                                      env_Message := SnapshotsRequest |}))).
Proof.
  induction n as [|n IH]; intros w; cbn [times replicate].
  - run_M. unfold after. by rewrite app_nil_r, world_eta.
  - unfold requestSnapshotsHook in *. run_M. rewrite IH.
    unfold after. cbn. by rewrite <- app_assoc.
Qed.

(** [Backfill] only adds calls to the trace *)
Lemma Backfill_reactor (sched : list verifyEvent) (state : State) (w : World) :
  reactor (worldOf (Backfill sched state w)) = reactor w.
Proof.
  rewrite Backfill_unfold, backfill_unfold.
  match goal with
  | |- context [verifyLoop ?s ?v ?w0] =>
      destruct (verifyLoop_after s v w0) as (effects & -> & _)
  end.
  done.
Qed.

#[local] Arguments Backfill : simpl never.
#[local] Arguments times : simpl never.
#[local] Arguments waitForEnoughPeers : simpl never.

(** the path of [Sync] that finds a sync in progress *)
Lemma Sync_in_progress (env : SyncEnv) (w w1 : World) (s : syncer) :
  waitForEnoughPeers (se_wait env) 2 w = Ret tt w1 ->
  mtx (reactor w) = Unlocked ->
  r_syncer (reactor w) = Some s ->
  Sync env w =
    Ret (emptyState, Some (errors_New "a state sync is already in progress")) w1.
Proof.
  intros Hwait Hmtx Hsyncer.
  destruct (waitForEnoughPeers_Ret _ _ _ _ Hwait) as [ps ->].
  unfold Sync. rewrite (bind_Ret _ _ _ _ _ Hwait).
  destruct w as [r t]. destruct r. cbn in *. subst.
  unfold mtx_Lock, mtx_Unlock. run_M. done.
Qed.

(** the path of [Sync] on which the state provider cannot be initialised *)
Lemma Sync_init_failure (env : SyncEnv) (w w1 : World) (e : error) :
  waitForEnoughPeers (se_wait env) 2 w = Ret tt w1 ->
  mtx (reactor w) = Unlocked ->
  r_syncer (reactor w) = None ->
  (se_newStateProvider env).2 = Some e ->
  ∃ w2,
    Sync env w =
      Ret (emptyState,
           Some (fmt_Errorf_w
                   (if cfg_UseP2P (cfg (reactor w))
                    then "failed to initialize P2P state provider: "
                    else "failed to initialize RPC state provider: ") e)) w2
    ∧ r_syncer (reactor w2) = None
    ∧ stateProvider (reactor w2) = (se_newStateProvider env).1
    ∧ mtx (reactor w2) = WLocked.
Proof.
  intros Hwait Hmtx Hsyncer Hfail.
  destruct (waitForEnoughPeers_Ret _ _ _ _ Hwait) as [ps ->].
  unfold Sync. rewrite (bind_Ret _ _ _ _ _ Hwait).
  destruct w as [r t]. destruct r. cbn in *. subst.
  unfold mtx_Lock, initStateProvider. run_M.
  destruct (cfg_UseP2P cfg0); run_M; rewrite Hfail; run_M; eexists; done.
Qed.

(** the path of [Sync] on which every step before [Backfill] succeeds: the
    reactor ends as the wait left it, but for the state provider *)
Lemma Sync_completes (env : SyncEnv) (w w1 : World)
    (state : State) (commit : Commit) (backfillResult : option error) :
  waitForEnoughPeers (se_wait env) 2 w = Ret tt w1 ->
  mtx (reactor w) = Unlocked ->
  r_syncer (reactor w) = None ->
  (se_newStateProvider env).2 = None ->
  se_SyncAny env = (state, commit, None) ->
  se_Bootstrap env = None ->
  se_SaveSeenCommit env = None ->
  (∀ w0, ∃ w0', Backfill (se_backfill env) state w0 = Ret backfillResult w0') ->
  ∃ w',
    Sync env w = Ret (state, None) w'
    ∧ reactor w' = set_stateProvider None (reactor w1).
Proof.
  intros Hwait Hmtx Hsyncer Hsp Hany Hboot Hcommit Hbackfill.
  destruct (waitForEnoughPeers_Ret _ _ _ _ Hwait) as [ps ->].
  unfold Sync. rewrite (bind_Ret _ _ _ _ _ Hwait).
  destruct w as [r t]. destruct r. cbn in *. subst.
  unfold mtx_Lock, mtx_Unlock, initStateProvider, syncAndBootstrap, SyncAny,
         resetSyncing.
  run_M.
  destruct (cfg_UseP2P cfg0); run_M; rewrite Hsp; run_M;
    rewrite times_hook; cbn; rewrite Hany; cbn; rewrite Hboot; cbn;
    rewrite Hcommit; cbn;
    match goal with
    | |- context [Backfill ?s ?st ?w0] =>
        pose proof (Backfill_reactor s st w0) as Hr;
        destruct (Hbackfill w0) as [w0' Hw0']; rewrite Hw0' in *
    end;
    cbn in Hr; destruct w0' as [r0 t0]; cbn in Hr; subst r0;
    unfold mtx_Lock, mtx_Unlock; run_M; eexists; done.
Qed.
End SyncFacts.

Section LockedMutex.
Context `{ExternOps}.

Lemma mtx_Lock_blocks (w : World) :
  mtx (reactor w) = WLocked -> mtx_Lock w = Blocked w.
Proof. intros Hm. unfold mtx_Lock. run_M. by rewrite Hm. Qed.

Lemma mtx_RLock_blocks (w : World) :
  mtx (reactor w) = WLocked -> mtx_RLock w = Blocked w.
Proof. intros Hm. unfold mtx_RLock. run_M. by rewrite Hm. Qed.

Lemma Sync_blocks_when_locked (env : SyncEnv) (w : World) :
  mtx (reactor w) = WLocked ->
  ∃ w', Sync env w = Blocked w' ∧ mtx (reactor w') = WLocked.
Proof.
  intros Hm. unfold Sync.
  destruct (waitForEnoughPeers_cases 2 (se_wait env) w) as [ps [Hw|Hw]];
    eexists; (split; [|shelve]).
  - rewrite (bind_Ret _ _ _ _ _ Hw). apply bind_Blocked, mtx_Lock_blocks.
    destruct w as [r t]; destruct r; exact Hm.
  - by apply bind_Blocked.
  Unshelve. all: destruct w as [r t]; destruct r; exact Hm.
Qed.

Lemma processPeerUpdate_blocks_when_locked (peerUpdate : PeerUpdate) (w : World) :
  mtx (reactor w) = WLocked ->
  ∃ w', processPeerUpdate peerUpdate w = Blocked w' ∧ mtx (reactor w') = WLocked.
Proof.
  intros Hm. unfold processPeerUpdate, peers_Append, peers_Remove, mtx_Lock.
  destruct w as [r t]; destruct r; cbn in Hm; subst.
  destruct (pu_Status peerUpdate); run_M; eexists; done.
Qed.

Lemma handleSnapshotMessage_blocks_when_locked
    (listed : error + list abci_Snapshot) (addErr : option error)
    (envelope : Envelope) (height format chunks : Z) (hash metadata : bytes)
    (w : World) :
  env_Message envelope = SnapshotsResponse height format chunks hash metadata ->
  mtx (reactor w) = WLocked ->
  handleSnapshotMessage listed addErr envelope w = Blocked w.
Proof.
  intros Hmsg Hm. unfold handleSnapshotMessage. rewrite Hmsg.
  by apply bind_Blocked, mtx_RLock_blocks.
Qed.

Lemma handleChunkMessage_blocks_when_locked
    (loaded : error + option bytes) (addErr : option error)
    (envelope : Envelope) (height format index : Z) (chunk_ : option bytes)
    (missing : bool) (w : World) :
  env_Message envelope = ChunkResponse height format index chunk_ missing ->
  mtx (reactor w) = WLocked ->
  handleChunkMessage loaded addErr envelope w = Blocked w.
Proof.
  intros Hmsg Hm. unfold handleChunkMessage. rewrite Hmsg.
  by apply bind_Blocked, mtx_RLock_blocks.
Qed.

Lemma handleParamsResponse_blocks_when_locked (ready : bool)
    (cp : ConsensusParams) (w : World) :
  mtx (reactor w) = WLocked -> handleParamsResponse ready cp w = Blocked w.
Proof.
  intros Hm. unfold handleParamsResponse.
  by apply bind_Blocked, mtx_RLock_blocks.
Qed.
End LockedMutex.

Section SyncClaims.
Context `{ExternOps}.

(** C5: if the wait for peers is over, no sync is in progress, and the
    state provider, [SyncAny], [stateStore.Bootstrap] and
    [blockStore.SaveSeenCommit] all succeed, then whatever [Backfill]
    returns, an error included, [Sync] returns the new state and a nil
    error, with the syncer and state provider fields reset and the mutex
    released. *)
Theorem Sync_swallows_backfill_error (env : SyncEnv) (w w1 : World)
    (state : State) (commit : Commit) (backfillResult : option error) :
  waitForEnoughPeers (se_wait env) 2 w = Ret tt w1 ->
  mtx (reactor w) = Unlocked ->
  r_syncer (reactor w) = None ->
  (se_newStateProvider env).2 = None ->
  se_SyncAny env = (state, commit, None) ->
  se_Bootstrap env = None ->
  se_SaveSeenCommit env = None ->
  (∀ w0, ∃ w0', Backfill (se_backfill env) state w0 = Ret backfillResult w0') ->
  ∃ w',
    Sync env w = Ret (state, None) w'
    ∧ r_syncer (reactor w') = None
    ∧ stateProvider (reactor w') = None
    ∧ mtx (reactor w') = Unlocked.
Proof.
  intros Hwait Hmtx Hsyncer Hsp Hany Hboot Hcommit Hbackfill.
  destruct (Sync_completes env w w1 state commit backfillResult
              Hwait Hmtx Hsyncer Hsp Hany Hboot Hcommit Hbackfill)
    as (w' & Hsync & Hreactor).
  destruct (waitForEnoughPeers_Ret _ _ _ _ Hwait) as [ps ->].
  exists w'. rewrite Hreactor. cbn.
  destruct w as [r t]; destruct r; cbn in *. by subst.
Qed.

(** C6 (as the code has it): if [Sync] is called while a sync is in
    progress (the syncer field is set) and the mutex is free then, once its
    wait for two peers is over (two peers are connected or the context is
    done), it returns the empty state and the error "a state sync is already
    in progress" without calling any collaborator and without changing the
    syncer, state provider or providers fields, and it leaves the mutex
    released. *)
Theorem Sync_refuses_when_in_progress (env : SyncEnv) (w w1 : World) (s : syncer) :
  waitForEnoughPeers (se_wait env) 2 w = Ret tt w1 ->
  mtx (reactor w) = Unlocked ->
  r_syncer (reactor w) = Some s ->
  Sync env w =
    Ret (emptyState, Some (errors_New "a state sync is already in progress")) w1
  ∧ trace w1 = trace w
  ∧ r_syncer (reactor w1) = r_syncer (reactor w)
  ∧ stateProvider (reactor w1) = stateProvider (reactor w)
  ∧ providers (reactor w1) = providers (reactor w)
  ∧ mtx (reactor w1) = Unlocked.
Proof.
  intros Hwait Hmtx Hsyncer.
  split; [by eapply Sync_in_progress|].
  destruct (waitForEnoughPeers_Ret _ _ _ _ Hwait) as [ps ->].
  destruct w as [r t]; destruct r; cbn in *. by subst.
Qed.

(** C10: when [initStateProvider] fails, [Sync] returns the wrapped error
    with the syncer field still nil and the reactor mutex still held for
    writing, whereas the path that finds a sync in progress and the path
    that completes both end with the mutex released.  In the world the
    failure leaves behind, every call that takes the mutex waits for ever: a
    further [Sync], [processPeerUpdate], the response cases of the
    snapshot, chunk and params handlers, and [Lock] and [RLock] themselves;
    a waiting call leaves the mutex held. *)
Theorem Sync_init_failure_keeps_mutex (env : SyncEnv) (w w1 : World) (e : error) :
  waitForEnoughPeers (se_wait env) 2 w = Ret tt w1 ->
  mtx (reactor w) = Unlocked ->
  r_syncer (reactor w) = None ->
  (se_newStateProvider env).2 = Some e ->
  (∃ w2,
    Sync env w =
      Ret (emptyState,
           Some (fmt_Errorf_w
                   (if cfg_UseP2P (cfg (reactor w))
                    then "failed to initialize P2P state provider: "
                    else "failed to initialize RPC state provider: ") e)) w2
    ∧ r_syncer (reactor w2) = None
    ∧ mtx (reactor w2) = WLocked
    ∧ mtx_Lock w2 = Blocked w2
    ∧ mtx_RLock w2 = Blocked w2
    ∧ (∀ env', ∃ w3, Sync env' w2 = Blocked w3 ∧ mtx (reactor w3) = WLocked)
    ∧ (∀ peerUpdate, ∃ w3,
         processPeerUpdate peerUpdate w2 = Blocked w3 ∧ mtx (reactor w3) = WLocked)
    ∧ (∀ listed addErr envelope height format chunks hash metadata,
         env_Message envelope = SnapshotsResponse height format chunks hash metadata ->
         handleSnapshotMessage listed addErr envelope w2 = Blocked w2)
    ∧ (∀ loaded addErr envelope height format index chunk_ missing,
         env_Message envelope = ChunkResponse height format index chunk_ missing ->
         handleChunkMessage loaded addErr envelope w2 = Blocked w2)
    ∧ (∀ ready cp, handleParamsResponse ready cp w2 = Blocked w2))
  ∧ (∀ (env0 : SyncEnv) (u u1 : World) (s : syncer),
       waitForEnoughPeers (se_wait env0) 2 u = Ret tt u1 ->
       mtx (reactor u) = Unlocked ->
       r_syncer (reactor u) = Some s ->
       mtx (reactor (worldOf (Sync env0 u))) = Unlocked)
  ∧ (∀ (env0 : SyncEnv) (u u1 : World) (state : State) (commit : Commit)
       (backfillResult : option error),
       waitForEnoughPeers (se_wait env0) 2 u = Ret tt u1 ->
       mtx (reactor u) = Unlocked ->
       r_syncer (reactor u) = None ->
       (se_newStateProvider env0).2 = None ->
       se_SyncAny env0 = (state, commit, None) ->
       se_Bootstrap env0 = None ->
       se_SaveSeenCommit env0 = None ->
       (∀ w0, ∃ w0', Backfill (se_backfill env0) state w0 = Ret backfillResult w0') ->
       mtx (reactor (worldOf (Sync env0 u))) = Unlocked).
Proof.
  intros Hwait Hmtx Hsyncer Hfail. split; [|split].
  - destruct (Sync_init_failure env w w1 e Hwait Hmtx Hsyncer Hfail)
      as (w2 & Hsync & Hs & _ & Hlocked).
    exists w2. split; [done|]. split; [done|]. split; [done|].
    split; [by apply mtx_Lock_blocks|]. split; [by apply mtx_RLock_blocks|].
    split; [intros; by apply Sync_blocks_when_locked|].
    split; [intros; by apply processPeerUpdate_blocks_when_locked|].
    split; [intros; by eapply handleSnapshotMessage_blocks_when_locked|].
    split; [intros; by eapply handleChunkMessage_blocks_when_locked|].
    intros. by apply handleParamsResponse_blocks_when_locked.
  - intros env0 u u1 s Hw Hm Hs.
    rewrite (Sync_in_progress env0 u u1 s Hw Hm Hs).
    destruct (waitForEnoughPeers_Ret _ _ _ _ Hw) as [ps ->].
    destruct u as [r t]; destruct r; exact Hm.
  - intros env0 u u1 state commit backfillResult Hw Hm Hs Hsp Hany Hboot Hcommit Hb.
    destruct (Sync_completes env0 u u1 state commit backfillResult
                Hw Hm Hs Hsp Hany Hboot Hcommit Hb) as (w' & -> & Hu).
    cbn. rewrite Hu.
    destruct (waitForEnoughPeers_Ret _ _ _ _ Hw) as [ps ->].
    destruct u as [r t]; destruct r; exact Hm.
Qed.
End SyncClaims.

(** ** Runs of the verifier *)

Section VerifierRuns.
Context `{ExternOps}.

Lemma verifyLoop_cons (ev : verifyEvent) (rest : list verifyEvent)
    (v : verifier) (w w1 : World) (r : verifier + option error) :
  verifyStep v ev w = Ret r w1 ->
  verifyLoop (ev :: rest) v w =
    match r with
    | inl v' => verifyLoop rest v' w1
    | inr result => Ret result w1
    end.
Proof.
  intros Hstep. cbn [verifyLoop]. rewrite (bind_Ret _ _ _ _ _ Hstep).
  by destruct r.
Qed.

Lemma after_after (w : World) (l1 l2 : list Effect) :
  after (after w l1) l2 = after w (l1 ++ l2).
Proof. unfold after. cbn. by rewrite app_assoc. Qed.

Lemma after_nil (w : World) : after w [] = w.
Proof. unfold after. by rewrite app_nil_r, world_eta. Qed.

Lemma verifyStep_stop (v : verifier) (w : World) :
  verifyStep v ev_closeCh w = Ret (inr None) (after w [queue_close])
  ∧ verifyStep v ev_ctxDone w = Ret (inr None) (after w [queue_close]).
Proof. split; by run_M. Qed.

Lemma verifyStep_queueDone (v : verifier) (queueErr : option error)
    (terminalHeight : Z) (saveValsErr : option error) (w : World) :
  verifyStep v (ev_queueDone queueErr terminalHeight saveValsErr) w =
    match queueErr with
    | Some err => Ret (inr (Some err)) (after w [])
    | None =>
        Ret (inr saveValsErr)
            (after w [stateStore_SaveValidatorSets terminalHeight
                        (lastChangeHeight v) (lastValidatorSet v)])
    end.
Proof. destruct queueErr; run_M; [by rewrite after_nil|done]. Qed.

(** splits a turn of the verifier into the ways it can go, leaving the
    equation of the turn as [Hstep] *)
Ltac verify_turn v ev w :=
  let resp := fresh "resp" in
  let saveHeaderErr := fresh "saveHeaderErr" in
  let saveValsErr := fresh "saveValsErr" in
  let queueErr := fresh "queueErr" in
  let terminal := fresh "terminal" in
  let Heq := fresh "Heq" in
  let Hneq := fresh "Hneq" in
  let Hchanged := fresh "Hchanged" in
  let herr := fresh "herr" in
  destruct ev as [| |resp saveHeaderErr saveValsErr|queueErr terminal saveValsErr];
  [ destruct (verifyStep_stop v w) as [Hstep _]
  | destruct (verifyStep_stop v w) as [_ Hstep]
  | destruct (decide (LightBlock_Hash (resp_block resp) = bid_Hash (trustedBlockID v)))
      as [Heq|Hneq];
    [ destruct saveHeaderErr as [herr|];
      [ pose proof (verifyStep_saveHeader_fails v resp herr saveValsErr w Heq) as Hstep
      | pose proof (verifyStep_match v resp saveValsErr w Heq) as Hstep;
        cbn zeta in Hstep;
        destruct (validatorSetChanged v (resp_block resp)) eqn:Hchanged;
        [destruct saveValsErr as [?|]|] ]
    | pose proof (verifyStep_mismatch v resp saveHeaderErr saveValsErr w Hneq)
        as Hstep ]
  | pose proof (verifyStep_queueDone v queueErr terminal saveValsErr w) as Hstep;
    destruct queueErr as [?|] ].

(** X1: the headers the verifier hands to [SaveSignedHeader] during a run
    form a chain: the first is saved under the trusted id the run starts
    with, each later one under the [LastBlockID] of the header saved before
    it, and each hashes to the id it is saved under. *)
Theorem verifier_saves_a_hash_chain (sched : list verifyEvent) :
  ∀ (v : verifier) (w : World),
    ∃ effects : list Effect,
      worldOf (verifyLoop sched v w) = after w effects
      ∧ headerChain (trustedBlockID v) (savedHeaders effects).
Proof.
  induction sched as [|ev rest IH]; intros v w.
  - exists []. split; [by rewrite after_nil|done].
  - verify_turn v ev w; rewrite (verifyLoop_cons _ rest _ _ _ _ Hstep);
      try (eexists; split; [reflexivity|]; cbn; by repeat split).
    + match goal with
      | |- context [verifyLoop rest ?v' ?w1] =>
          destruct (IH v' w1) as (effects & -> & Hchain)
      end.
      rewrite after_after. eexists; split; [reflexivity|]. cbn. by repeat split.
    + match goal with
      | |- context [verifyLoop rest ?v' ?w1] =>
          destruct (IH v' w1) as (effects & -> & Hchain)
      end.
      rewrite after_after. eexists; split; [reflexivity|]. cbn. by repeat split.
    + destruct (IH v (after w
        [ blockCh_Error
            {| pe_NodeID := resp_peer resp;
               pe_Err := fmt_Errorf_v
                 "received invalid light block. Expected hash %v, got: %v"
                 [bid_Hash (trustedBlockID v); LightBlock_Hash (resp_block resp)] |};
          queue_retry (lb_Height (resp_block resp)) ])) as (effects & -> & Hchain).
      rewrite after_after. eexists; split; [reflexivity|]. cbn. exact Hchain.
Qed.
Lemma verifier_ranges_from (sched : list verifyEvent) :
  ∀ (expected : Z -> Prop) (v : verifier) (w : World),
    expected (lastChangeHeight v) ->
    ∃ effects : list Effect,
      worldOf (verifyLoop sched v w) = after w effects
      ∧ rangesOK expected (savedRanges effects).
Proof.
  induction sched as [|ev rest IH]; intros expected v w Hexp.
  - exists []. split; [by rewrite after_nil|done].
  - verify_turn v ev w; rewrite (verifyLoop_cons _ rest _ _ _ _ Hstep);
      try (eexists; split; [reflexivity|]; cbn; by repeat split).
    + match goal with
      | |- context [verifyLoop rest ?v' ?w1] =>
          destruct (IH (fun next => Int64.add next 1 =
                                    Int64.add (lb_Height (resp_block resp)) 1) v' w1)
            as (effects & -> & Hranges); [done|]
      end.
      rewrite after_after. eexists; split; [reflexivity|]. cbn. by split.
    + match goal with
      | |- context [verifyLoop rest ?v' ?w1] =>
          destruct (IH expected v' w1) as (effects & -> & Hranges); [done|]
      end.
      rewrite after_after. eexists; split; [reflexivity|]. cbn. exact Hranges.
    + match goal with
      | |- context [verifyLoop rest v ?w1] =>
          destruct (IH expected v w1) as (effects & -> & Hranges); [done|]
      end.
      rewrite after_after. eexists; split; [reflexivity|]. cbn. exact Hranges.
Qed.

(** X2: the height ranges the verifier hands to [SaveValidatorSets] during
    a run leave no gap and do not overlap: the first range ends at the
    height the run starts from, and every later range ends right below the
    start of the range stored before it. *)
Theorem verifier_ranges_are_contiguous (sched : list verifyEvent)
    (v : verifier) (w : World) :
  ∃ effects : list Effect,
    worldOf (verifyLoop sched v w) = after w effects
    ∧ rangesOK (fun upper => upper = lastChangeHeight v) (savedRanges effects)
    ∧ (∀ lower upper rest,
         savedRanges effects = (lower, upper) :: rest ->
         upper = lastChangeHeight v
         ∧ ∀ lower' upper' rest',
             rest = (lower', upper') :: rest' -> Int64.add upper' 1 = lower).
Proof.
  destruct (verifier_ranges_from sched (fun upper => upper = lastChangeHeight v) v w)
    as (effects & Hw & Hranges); [done|].
  exists effects. split; [done|]. split; [done|].
  intros lower upper rest Hsaved. rewrite Hsaved in Hranges.
  destruct Hranges as [Hupper Hrest]. split; [done|].
  intros lower' upper' rest' ->. by destruct Hrest.
Qed.

(** a loop that has used up its schedule goes on with what comes next *)
Lemma verifyLoop_resume (pre : list verifyEvent) :
  ∀ (v : verifier) (w w' : World),
    verifyLoop pre v w = Blocked w' ->
    ∃ v', ∀ post, verifyLoop (pre ++ post) v w = verifyLoop post v' w'.
Proof.
  induction pre as [|ev pre IH]; intros v w w' Hblocked.
  - run_M. injection Hblocked as <-. by exists v.
  - destruct (verifyStep_after v ev w) as (r & effects & Hstep & _).
    rewrite (verifyLoop_cons _ pre _ _ _ _ Hstep) in Hblocked.
    destruct r as [v1|result]; [|done].
    destruct (IH v1 _ _ Hblocked) as [v' Hv']. exists v'. intros post.
    rewrite <- app_comm_cons, (verifyLoop_cons _ (pre ++ post) _ _ _ _ Hstep).
    apply Hv'.
Qed.

(** X3: wherever the verifier is waiting, a closed reactor or a cancelled
    context makes [backfill] close the queue and return nil; nothing else is
    called, so the validator sets of the blocks verified so far are not
    stored by a final [SaveValidatorSets]. *)
Theorem verifier_cancel_returns_nil (pre rest : list verifyEvent)
    (v : verifier) (w w' : World) :
  verifyLoop pre v w = Blocked w' ->
  verifyLoop (pre ++ ev_ctxDone :: rest) v w = Ret None (after w' [queue_close])
  ∧ verifyLoop (pre ++ ev_closeCh :: rest) v w = Ret None (after w' [queue_close]).
Proof.
  intros Hblocked. destruct (verifyLoop_resume pre v w w' Hblocked) as [v' Hv'].
  rewrite !Hv'. destruct (verifyStep_stop v' w') as [Hclose Hdone].
  by rewrite (verifyLoop_cons _ rest _ _ _ _ Hclose),
             (verifyLoop_cons _ rest _ _ _ _ Hdone).
Qed.
End VerifierRuns.

(** ** Runs of a fetch worker *)

Section WorkerRuns.
Context `{ExternOps}.

Lemma queuedBlocks_app (l1 l2 : list Effect) :
  queuedBlocks (l1 ++ l2) = queuedBlocks l1 ++ queuedBlocks l2.
Proof.
  induction l1 as [|e l1 IH]; [done|].
  destruct e; cbn; by rewrite ?IH.
Qed.

Lemma peers_after_iteration (peer q : NodeID) (l : list NodeID) :
  q ∈ peerList_Append peer l ∨ q ∈ peerList_Remove peer (peerList_Append peer l) ->
  q ∈ l ∨ q = peer.
Proof.
  unfold peerList_Remove, peerList_Append.
  rewrite list_elem_of_filter, !elem_of_app, list_elem_of_singleton. tauto.
Qed.

#[local] Arguments peerList_Append : simpl never.
#[local] Arguments peerList_Remove : simpl never.

(** an iteration waits at [Pop] with nothing done, or ends having called
    the dispatcher once, changed at most the peer list, and added at most
    one block, which then is the one the dispatcher returned *)
Lemma fetchIteration_shape (chainID_ : string) (height : Z) (o : fetchOutcome)
    (w : World) :
  fetchIteration chainID_ height o w = Blocked w
  ∨ ∃ (ctl : loopCtl) (peer : NodeID) (ps : list NodeID) (effects : list Effect),
      fetchIteration chainID_ height o w =
        Ret ctl {| reactor := set_peers ps (reactor w);
                   trace := trace w ++ dispatcher_LightBlock height peer :: effects |}
      ∧ (∀ q, q ∈ ps -> q ∈ peers (reactor w) ∨ q = ""%string)
      ∧ Forall (addedFor chainID_ height o) (queuedBlocks effects)
      ∧ Forall (fun resp => resp_peer resp = peer) (queuedBlocks effects).
Proof.
  destruct w as [r t]. destruct r as [c i g d ps0 m s pr sp].
  destruct o as [cancelled lb err].
  unfold fetchIteration, peers_Pop, peers_Append, peers_Remove.
  destruct ps0 as [|p ps0]; [destruct cancelled|]; run_M; try (by left); right.
  all: destruct (errors_Is err context_Canceled) eqn:Hcancel;
       [|destruct err as [e|];
         [destruct (error_Is e errNoConnectedPeers)
         |destruct lb as [lb|];
           [destruct (LightBlock_ValidateBasic lb chainID_) as [e|] eqn:Hvalid;
              [ rewrite (bool_decide_eq_true_2 (Some e ≠ None)) by done
              | rewrite (bool_decide_eq_false_2 (@None error ≠ None)) by (by intros ?);
                cbn; case_bool_decide as Hheight ]|]]];
       cbn; rewrite <- ?app_assoc; cbn.
  all: eexists _, _, _, _; (split; [reflexivity|]); split;
       [ intros q Hq;
         first [ destruct (peers_after_iteration _ q _ (or_introl Hq)) as [Hl| ->]
               | destruct (peers_after_iteration _ q _ (or_intror Hq)) as [Hl| ->] ];
         first [ by right | left; by constructor | left; by apply elem_of_cons; right
               | by apply elem_of_nil in Hl ]
       | cbn; split; repeat constructor; cbn; try done ].
  all: by apply dec_stable.
Qed.

Lemma fetchWorker_run (chainID_ : string) (sched : list fetchEvent) :
  ∀ w : World,
    ∃ (ps : list NodeID) (effects : list Effect),
      worldOf (fetchWorker chainID_ sched w) =
        {| reactor := set_peers ps (reactor w); trace := trace w ++ effects |}
      ∧ (∀ q, q ∈ ps -> q ∈ peers (reactor w) ∨ q = ""%string)
      ∧ Forall (fun resp => ∃ height o,
                  (height, o) ∈ scheduledHeights sched
                  ∧ addedFor chainID_ height o resp)
               (queuedBlocks effects).
Proof.
  induction sched as [|[height o|] rest IH]; intros w.
  - exists (peers (reactor w)), []. cbn.
    rewrite set_peers_eta, app_nil_r, world_eta. by repeat split; auto.
  - cbn [fetchWorker scheduledHeights].
    destruct (fetchIteration_shape chainID_ height o w)
      as [Hblocked|(ctl & peer & ps & effects & Hit & Hps & Hadded & _)].
    + rewrite (bind_Blocked _ _ _ _ Hblocked).
      exists (peers (reactor w)), []. cbn.
      rewrite set_peers_eta, app_nil_r, world_eta. by repeat split; auto.
    + rewrite (bind_Ret _ _ _ _ _ Hit).
      assert (Forall (fun resp => ∃ height' o',
                        (height', o') ∈ (height, o) :: scheduledHeights rest
                        ∧ addedFor chainID_ height' o' resp)
                     (queuedBlocks effects)) as Hhere.
      { eapply Forall_impl; [exact Hadded|]. intros resp Hresp.
        exists height, o. split; [by left|done]. }
      destruct ctl.
      * match goal with
        | |- context [fetchWorker chainID_ rest ?w1] =>
            destruct (IH w1) as (ps' & effects' & -> & Hps' & Hadded')
        end.
        exists ps', (dispatcher_LightBlock height peer :: effects ++ effects').
        cbn. rewrite <- app_assoc. split; [done|]. split.
        -- intros q Hq. destruct (Hps' q Hq) as [Hin|Hempty]; [|by right].
           by apply Hps.
        -- rewrite queuedBlocks_app. apply Forall_app. split; [done|].
           eapply Forall_impl; [exact Hadded'|].
           intros resp (height' & o' & Hin & Hresp).
           exists height', o'. split; [by right|done].
      * exists ps, (dispatcher_LightBlock height peer :: effects). by repeat split.
  - exists (peers (reactor w)), []. cbn.
    rewrite set_peers_eta, app_nil_r, world_eta. by repeat split; auto.
Qed.

(** X4: whatever a fetch worker meets, every block it adds to the queue was
    returned without error by the dispatcher for a height the queue handed
    out, passed [ValidateBasic] for the chain id, and has that height. *)
Theorem worker_adds_only_validated_blocks (chainID_ : string)
    (sched : list fetchEvent) (w : World) :
  ∃ effects : list Effect,
    trace (worldOf (fetchWorker chainID_ sched w)) = trace w ++ effects
    ∧ ∀ resp, resp ∈ queuedBlocks effects ->
        LightBlock_ValidateBasic (resp_block resp) chainID_ = None
        ∧ ∃ o, (lb_Height (resp_block resp), o) ∈ scheduledHeights sched
               ∧ fo_err o = None
               ∧ fo_lb o = Some (resp_block resp).
Proof.
  destruct (fetchWorker_run chainID_ sched w) as (ps & effects & -> & _ & Hadded).
  exists effects. split; [done|]. intros resp Hresp.
  rewrite Forall_forall in Hadded.
  destruct (Hadded resp Hresp) as (height & o & Hin & Herr & Hlb & Hvalid & <-).
  split; [done|]. by exists o.
Qed.

(** X5: a fetch worker changes nothing of the reactor but the peer list,
    and never puts into the peer list an id that was not in it, the empty
    id it gets when the context is cancelled apart. *)
Theorem worker_only_rotates_peers (chainID_ : string)
    (sched : list fetchEvent) (w : World) :
  ∃ ps : list NodeID,
    reactor (worldOf (fetchWorker chainID_ sched w)) = set_peers ps (reactor w)
    ∧ ∀ q, q ∈ ps -> q ∈ peers (reactor w) ∨ q = ""%string.
Proof.
  destruct (fetchWorker_run chainID_ sched w) as (ps & effects & -> & Hps & _).
  by exists ps.
Qed.
End WorkerRuns.

(** ** The handlers and the read lock *)

Section HandlerFacts.
Context `{ExternOps}.

#[local] Arguments mtx_RUnlock : simpl never.
#[local] Arguments mtx_RLock : simpl never.

(** a read lock can be taken unless the mutex is held for writing, and
    releasing it restores the mutex *)
Lemma RLock_then_RUnlock (w : World) :
  mtx (reactor w) ≠ WLocked ->
  ∃ m1 : RWMutex,
    mtx_RLock w = Ret tt {| reactor := set_mtx m1 (reactor w); trace := trace w |}
    ∧ ∀ t', mtx_RUnlock {| reactor := set_mtx m1 (reactor w); trace := t' |} =
              Ret tt {| reactor := reactor w; trace := t' |}.
Proof.
  intros Hfree. destruct w as [r t]. destruct r as [c i g d ps m s pr sp].
  cbn in Hfree. unfold mtx_RLock, mtx_RUnlock. destruct m as [| |n]; [|done|].
  - exists (RLocked 1). by run_M.
  - exists (RLocked (Pos.succ n)). run_M. split; [done|]. intros t'.
    destruct (Pos.succ n) eqn:Hsucc; rewrite <- ?Hsucc, ?Pos.pred_succ; try done.
    by apply Pos.succ_not_1 in Hsucc.
Qed.

(** X6: a [SnapshotsResponse] or [ChunkResponse] that arrives while no sync
    is in progress is dropped: nothing is called and nothing changes.  While
    a sync is in progress it is handed to the syncer exactly once, with the
    fields of the message and its sender, and whether or not the syncer
    rejects it the handler returns nil and leaves the reactor as it was. *)
Theorem responses_reach_the_syncer_only_during_sync
    (envelope : Envelope) (addErr : option error) (w : World) :
  mtx (reactor w) ≠ WLocked ->
  (∀ listed height format chunks hash metadata,
     env_Message envelope = SnapshotsResponse height format chunks hash metadata ->
     handleSnapshotMessage listed addErr envelope w =
       match r_syncer (reactor w) with
       | None => Ret None w
       | Some _ =>
           Ret None
               (after w [syncer_AddSnapshot (env_From envelope)
                           {| snap_Height := height; snap_Format := format;
                              snap_Chunks := chunks; snap_Hash := hash;
                              snap_Metadata := metadata |}])
       end)
  ∧ (∀ loaded height format index chunk_ missing,
       env_Message envelope = ChunkResponse height format index chunk_ missing ->
       handleChunkMessage loaded addErr envelope w =
         match r_syncer (reactor w) with
         | None => Ret None w
         | Some _ =>
             Ret None
                 (after w [syncer_AddChunk
                             {| chunk_Height := height; chunk_Format := format;
                                chunk_Index := index; chunk_Chunk := chunk_;
                                chunk_Sender := env_From envelope |}])
         end).
Proof.
  intros Hfree.
  destruct (RLock_then_RUnlock w Hfree) as (m1 & Hlock & Hunlock).
  split.
  - intros listed height format chunks hash metadata Hmsg.
    unfold handleSnapshotMessage. rewrite Hmsg, (bind_Ret _ _ _ _ _ Hlock).
    run_M. destruct (r_syncer (reactor w)); [destruct addErr|];
      run_M; rewrite Hunlock; by rewrite ?world_eta.
  - intros loaded height format index chunk_ missing Hmsg.
    unfold handleChunkMessage. rewrite Hmsg, (bind_Ret _ _ _ _ _ Hlock).
    run_M. destruct (r_syncer (reactor w)); [destruct addErr|];
      run_M; rewrite Hunlock; by rewrite ?world_eta.
Qed.

(** X7: unless the mutex is held for writing, the snapshot, chunk and
    params handlers return, leave the reactor as it was, and return an error
    exactly when the message is not one of their channel; then they have
    called nothing.  A failure of the application, of the stores or of the
    syncer is never turned into an error against the peer. *)
Theorem handlers_fail_only_on_foreign_messages (envelope : Envelope) (w : World) :
  mtx (reactor w) ≠ WLocked ->
  (∀ listed addErr, ∃ r w',
     handleSnapshotMessage listed addErr envelope w = Ret r w'
     ∧ reactor w' = reactor w
     ∧ (r = None ↔ onSnapshotChannel (env_Message envelope) = true)
     ∧ (r ≠ None -> r = Some unknownMessage ∧ w' = w))
  ∧ (∀ loaded addErr, ∃ r w',
       handleChunkMessage loaded addErr envelope w = Ret r w'
       ∧ reactor w' = reactor w
       ∧ (r = None ↔ onChunkChannel (env_Message envelope) = true)
       ∧ (r ≠ None -> r = Some unknownMessage ∧ w' = w))
  ∧ (∀ stores ready, ∃ r w',
       handleParamsMessage stores ready envelope w = Ret r w'
       ∧ reactor w' = reactor w
       ∧ (r = None ↔ onParamsChannel (env_Message envelope) = true)
       ∧ (r ≠ None -> r = Some unknownMessage ∧ w' = w)).
Proof.
  intros Hfree.
  destruct (RLock_then_RUnlock w Hfree) as (m1 & Hlock & Hunlock).
  split; [|split].
  - intros listed addErr. unfold handleSnapshotMessage, recentSnapshots.
    destruct (env_Message envelope) eqn:Hmsg;
      try (eexists _, _; (split; [by run_M|]); by repeat split).
    + destruct listed as [err|snaps]; run_M.
      * eexists _, _; (split; [done|]); by repeat split.
      * rewrite advertise_trace. eexists _, _; (split; [done|]); by repeat split.
    + rewrite (bind_Ret _ _ _ _ _ Hlock). run_M.
      destruct (r_syncer (reactor w)); [destruct addErr|];
        run_M; rewrite Hunlock; eexists _, _; (split; [done|]); by repeat split.
  - intros loaded addErr. unfold handleChunkMessage.
    destruct (env_Message envelope) eqn:Hmsg;
      try (eexists _, _; (split; [by run_M|]); by repeat split).
    + destruct loaded as [err|respChunk]; run_M;
        eexists _, _; (split; [done|]); by repeat split.
    + rewrite (bind_Ret _ _ _ _ _ Hlock). run_M.
      destruct (r_syncer (reactor w)); [destruct addErr|];
        run_M; rewrite Hunlock; eexists _, _; (split; [done|]); by repeat split.
  - intros stores ready. unfold handleParamsMessage, handleParamsResponse.
    destruct (env_Message envelope) eqn:Hmsg;
      try (eexists _, _; (split; [by run_M|]); by repeat split).
    + destruct (LoadConsensusParams stores (int64_of_uint64 Height)).2; run_M;
        eexists _, _; (split; [done|]); by repeat split.
    + rewrite (bind_Ret _ _ _ _ _ Hlock). run_M.
      destruct (stateProvider (reactor w)) as [[?|?]|]; [destruct ready| |];
        run_M; rewrite Hunlock; eexists _, _; (split; [done|]); by repeat split.
Qed.
End HandlerFacts.

(** ** Peer updates *)

Section PeerUpdateFacts.
Context `{ExternOps}.

(** what [processPeerUpdate] does when it can take the mutex *)
Lemma processPeerUpdate_run (peerUpdate : PeerUpdate) (w : World) :
  mtx (reactor w) = Unlocked ->
  let r := reactor w in
  let id := pu_NodeID peerUpdate in
  let listed :=
    match pu_Status peerUpdate with
    | PeerStatusUp => peerList_Append id (peers r)
    | PeerStatusDown => peerList_Remove id (peers r)
    | PeerStatusOther => peers r
    end in
  processPeerUpdate peerUpdate w =
    match r_syncer r with
    | None => Ret tt {| reactor := set_peers listed r; trace := trace w |}
    | Some _ =>
        match pu_Status peerUpdate with
        | PeerStatusUp =>
            Ret tt
              {| reactor :=
                   set_providers (<[id := NewBlockProvider id (chainID r)]> (providers r))
                                 (set_peers listed r);
                 trace := trace w ++ syncer_AddPeer id ::
                   (match stateProvider r with
                    | Some (stateProviderP2P _) =>
                        [go_addProvider (NewBlockProvider id (chainID r))]
                    | _ => []
                    end) |}
        | PeerStatusDown =>
            Ret tt
              {| reactor := set_providers (delete id (providers r)) (set_peers listed r);
                 trace := trace w ++ [syncer_RemovePeer id] |}
        | PeerStatusOther => Ret tt w
        end
    end.
Proof.
  intros Hfree r id listed. subst r id listed.
  destruct w as [r t]. destruct r as [c i g d ps m s pr sp]. cbn in Hfree. subst m.
  unfold processPeerUpdate, peers_Append, peers_Remove, mtx_Lock, mtx_Unlock.
  destruct peerUpdate as [id status].
  destruct status, s as [s|]; run_M; try done.
  all: destruct sp as [[?|?]|]; run_M; by rewrite <- ?app_assoc.
Qed.

(** X8: while no sync is in progress a peer update only maintains the peer
    list: the providers map, the syncer and state provider fields stay as
    they are, nothing is called and the mutex is released again; after a
    peer went down its id is no longer in the peer list. *)
Theorem peer_update_without_sync (peerUpdate : PeerUpdate) (w : World) :
  mtx (reactor w) = Unlocked ->
  r_syncer (reactor w) = None ->
  ∃ ps : list NodeID,
    processPeerUpdate peerUpdate w =
      Ret tt {| reactor := set_peers ps (reactor w); trace := trace w |}
    ∧ (pu_Status peerUpdate = PeerStatusUp -> pu_NodeID peerUpdate ∈ ps)
    ∧ (pu_Status peerUpdate = PeerStatusDown -> pu_NodeID peerUpdate ∉ ps)
    ∧ (pu_Status peerUpdate = PeerStatusOther -> ps = peers (reactor w)).
Proof.
  intros Hfree Hidle.
  pose proof (processPeerUpdate_run peerUpdate w Hfree) as Hrun. cbn zeta in Hrun.
  rewrite Hidle in Hrun. eexists. split; [exact Hrun|].
  destruct (pu_Status peerUpdate); repeat split; try done.
  - intros _. unfold peerList_Append. set_solver.
  - intros _. apply peerList_Remove_not_in.
Qed.

(** X9: while a sync is in progress a peer update also keeps the providers
    map and the syncer in step with the peer, and releases the mutex: a peer
    that comes up gets a block provider for the reactor's chain id under its
    id and is announced to the syncer, and to the P2P state provider if that
    is the one in use; a peer that goes down loses its entry and is removed
    from the syncer.  No other entry of the map changes. *)
Theorem peer_update_during_sync (peerUpdate : PeerUpdate) (w : World) (s : syncer) :
  mtx (reactor w) = Unlocked ->
  r_syncer (reactor w) = Some s ->
  let id := pu_NodeID peerUpdate in
  ∃ w',
    processPeerUpdate peerUpdate w = Ret tt w'
    ∧ mtx (reactor w') = Unlocked
    ∧ r_syncer (reactor w') = Some s
    ∧ stateProvider (reactor w') = stateProvider (reactor w)
    ∧ (∀ q, q ≠ id -> providers (reactor w') !! q = providers (reactor w) !! q)
    ∧ match pu_Status peerUpdate with
      | PeerStatusUp =>
          providers (reactor w') !! id =
            Some {| bp_peer := id; bp_chainID := chainID (reactor w) |}
          ∧ trace w' = trace w ++ syncer_AddPeer id ::
              (match stateProvider (reactor w) with
               | Some (stateProviderP2P _) =>
                   [go_addProvider {| bp_peer := id; bp_chainID := chainID (reactor w) |}]
               | _ => []
               end)
      | PeerStatusDown =>
          providers (reactor w') !! id = None
          ∧ trace w' = trace w ++ [syncer_RemovePeer id]
      | PeerStatusOther =>
          providers (reactor w') !! id = providers (reactor w) !! id
          ∧ trace w' = trace w
      end.
Proof.
  intros Hfree Hsync id.
  pose proof (processPeerUpdate_run peerUpdate w Hfree) as Hrun. cbn zeta in Hrun.
  rewrite Hsync in Hrun. fold id in Hrun.
  destruct (pu_Status peerUpdate); eexists; (split; [exact Hrun|]); cbn.
  - repeat split; try done.
    + intros q Hq. by rewrite lookup_insert_ne.
    + by rewrite lookup_insert_eq.
  - repeat split; try done.
    + intros q Hq. by rewrite lookup_delete_ne.
    + by rewrite lookup_delete_eq.
  - by repeat split.
Qed.

(** X10: a peer that comes up and then goes down while a sync is in
    progress leaves the providers map as if it had only gone down, is no
    longer in the peer list, and the syncer has been told of both. *)
Theorem peer_up_then_down (id : NodeID) (w : World) (s : syncer) :
  mtx (reactor w) = Unlocked ->
  r_syncer (reactor w) = Some s ->
  ∃ w1 w2 announced,
    processPeerUpdate {| pu_NodeID := id; pu_Status := PeerStatusUp |} w = Ret tt w1
    ∧ processPeerUpdate {| pu_NodeID := id; pu_Status := PeerStatusDown |} w1 = Ret tt w2
    ∧ providers (reactor w2) = delete id (providers (reactor w))
    ∧ (id ∉ peers (reactor w2))
    ∧ mtx (reactor w2) = Unlocked
    ∧ trace w2 = trace w ++ syncer_AddPeer id :: announced ++ [syncer_RemovePeer id]
    ∧ Forall (fun e => ∃ p, e = go_addProvider p) announced.
Proof.
  intros Hfree Hsync.
  pose proof (processPeerUpdate_run {| pu_NodeID := id; pu_Status := PeerStatusUp |}
                w Hfree) as Hup.
  cbn zeta in Hup. rewrite Hsync in Hup. cbn in Hup.
  eexists _, _, _. split; [exact Hup|].
  rewrite processPeerUpdate_run by done. cbn. rewrite Hsync.
  split; [reflexivity|]. cbn.
  split; [by rewrite delete_insert_eq|].
  split; [apply peerList_Remove_not_in|]. split; [done|].
  split; [by rewrite <- app_assoc|].
  destruct (stateProvider (reactor w)) as [[?|?]|]; repeat constructor; by eexists.
Qed.
End PeerUpdateFacts.

(** ** Serving light blocks and consensus parameters *)

Section StoreFacts.
Context `{ExternOps}.

Lemma int64_of_uint64_low (height : Z) :
  0 <= height < 2 ^ 63 -> int64_of_uint64 height = height.
Proof.
  intros Hh. unfold int64_of_uint64, Int64.wrap, Int64.modulus.
  rewrite Z.mod_small; lia.
Qed.

Lemma int64_of_uint64_high (height : Z) :
  2 ^ 63 <= height < 2 ^ 64 -> int64_of_uint64 height = height - 2 ^ 64.
Proof.
  intros Hh. unfold int64_of_uint64, Int64.wrap, Int64.modulus.
  replace (height + 2 ^ 63) with ((height - 2 ^ 63) + 1 * 2 ^ 64) by lia.
  rewrite Z.mod_add, Z.mod_small; lia.
Qed.

(** X11: [fetchLightBlock] returns a light block exactly when the block
    meta, the commit and the validator set of the height are all stored and
    [LoadValidators] gives no error; the block is made of the stored header,
    commit and validator set.  It returns an error exactly when meta and
    commit are stored and [LoadValidators] fails, so a failure of
    [LoadValidators] at a height without meta or commit goes unnoticed; it
    never returns both a block and an error. *)
Theorem fetchLightBlock_needs_all_parts (stores : Stores) (height : Z) :
  let h := int64_of_uint64 height in
  (∀ lb,
     (fetchLightBlock stores height).1 = Some lb ↔
     ∃ meta commit vals,
       LoadBlockMeta stores h = Some meta
       ∧ LoadBlockCommit stores h = Some commit
       ∧ LoadValidators stores h = (Some vals, None)
       ∧ lb = {| lb_SignedHeader := {| sh_Header := bm_Header meta;
                                       sh_Commit := commit |};
                 lb_ValidatorSet := Some vals |})
  ∧ (∀ err,
       (fetchLightBlock stores height).2 = Some err ↔
       is_Some (LoadBlockMeta stores h)
       ∧ is_Some (LoadBlockCommit stores h)
       ∧ (LoadValidators stores h).2 = Some err)
  ∧ ((fetchLightBlock stores height).1 ≠ None ->
     (fetchLightBlock stores height).2 = None).
Proof.
  intros h. unfold fetchLightBlock. fold h.
  destruct (LoadBlockMeta stores h) as [meta|];
    [destruct (LoadBlockCommit stores h) as [commit|];
      [destruct (LoadValidators stores h) as [[vals|] [verr|]]|]|]; cbn.
  all: split; [|split]; try done.
  all: try (intros lb; split; [done|]; intros (? & ? & ? & ? & ? & ? & ?); done).
  all: try (intros err; split; [done|]; intros (Hm & Hc & Hv);
            first [by destruct Hm | by destruct Hc | done]).
  all: try (intros err; split; [intros [= <-]; by repeat split; eauto
                               |by intros (_ & _ & ?)]).
  intros lb. split.
  - intros [= <-]. by eexists _, _, _.
  - intros (? & ? & ? & [= <-] & [= <-] & [= <-] & ->). done.
Qed.

(** X12: a requested height is read from the stores after conversion to
    [int64]: below 2^63 at the height itself, from 2^63 on at the height
    minus 2^64, which is negative; so when the block store holds nothing at
    negative heights no light block is found for such a request. *)
Theorem fetchLightBlock_height_conversion (stores : Stores) (height : Z) :
  0 <= height < 2 ^ 64 ->
  (height < 2 ^ 63 -> int64_of_uint64 height = height)
  ∧ (2 ^ 63 <= height ->
     int64_of_uint64 height = height - 2 ^ 64
     ∧ int64_of_uint64 height < 0
     ∧ ((∀ k, k < 0 -> LoadBlockMeta stores k = None) ->
        fetchLightBlock stores height = (None, None))).
Proof.
  intros Hrange. split.
  - intros Hlow. apply int64_of_uint64_low. lia.
  - intros Hhigh.
    assert (int64_of_uint64 height = height - 2 ^ 64) as Hkey
      by (apply int64_of_uint64_high; lia).
    split; [done|]. split; [lia|].
    intros Hempty. unfold fetchLightBlock. rewrite Hempty by lia. done.
Qed.

(** X13: a light block request is answered with the block when the stores
    hold all its parts and it can be converted, and with a nil block when a
    part is missing; when the conversion fails nothing is sent and nil is
    returned; when [LoadValidators] fails for a stored block nothing is sent
    and that error is returned to the caller. *)
Theorem light_block_request_reply (stores : Stores)
    (toProtoErr : LightBlock -> option error) (envelope : Envelope)
    (height : Z) (w : World) :
  let h := int64_of_uint64 height in
  let reply lb := blockCh_Out {| env_From := ""; env_To := env_From envelope;
                                 env_Broadcast := false;
                                 env_Message := LightBlockResponse lb |} in
  (LoadBlockMeta stores h = None ∨ LoadBlockCommit stores h = None
   ∨ LoadValidators stores h = (None, None) ->
   handleLightBlockRequest stores toProtoErr envelope height w =
     Ret None (after w [reply None]))
  ∧ (∀ meta commit vals,
       LoadBlockMeta stores h = Some meta ->
       LoadBlockCommit stores h = Some commit ->
       LoadValidators stores h = (Some vals, None) ->
       let lb := {| lb_SignedHeader := {| sh_Header := bm_Header meta;
                                          sh_Commit := commit |};
                    lb_ValidatorSet := Some vals |} in
       handleLightBlockRequest stores toProtoErr envelope height w =
         match toProtoErr lb with
         | None => Ret None (after w [reply (Some lb)])
         | Some _ => Ret None w
         end)
  ∧ (∀ meta commit err,
       LoadBlockMeta stores h = Some meta ->
       LoadBlockCommit stores h = Some commit ->
       (LoadValidators stores h).2 = Some err ->
       handleLightBlockRequest stores toProtoErr envelope height w =
         Ret (Some err) w).
Proof.
  intros h reply. unfold handleLightBlockRequest, fetchLightBlock. fold h.
  split; [|split].
  - intros Hmissing.
    destruct (LoadBlockMeta stores h) as [meta|]; [|by run_M].
    destruct (LoadBlockCommit stores h) as [commit|]; [|by run_M].
    destruct Hmissing as [?|[?|Hvals]]; [done|done|].
    rewrite Hvals. by run_M.
  - intros meta commit vals -> -> ->. cbn.
    match goal with |- context [toProtoErr ?lb] => destruct (toProtoErr lb) end;
      by run_M.
  - intros meta commit err -> -> Herr. rewrite Herr. by run_M.
Qed.

(** X14: requests are served without the reactor mutex: whatever state the
    mutex is in, even held for writing, a [SnapshotsRequest], a
    [ChunkRequest], a [LightBlockRequest] and a [ParamsRequest] are handled
    to the end, with nil returned for the first, second and fourth, and the
    reactor is left as it was.  A [ParamsResponse] to a [ParamsRequest]
    carries the height as it was requested. *)
Theorem requests_do_not_take_the_mutex (envelope : Envelope) (w : World) :
  (env_Message envelope = SnapshotsRequest ->
   ∀ listed addErr, ∃ w',
     handleSnapshotMessage listed addErr envelope w = Ret None w'
     ∧ reactor w' = reactor w)
  ∧ (∀ height format index, env_Message envelope = ChunkRequest height format index ->
     ∀ loaded addErr, ∃ w',
       handleChunkMessage loaded addErr envelope w = Ret None w'
       ∧ reactor w' = reactor w)
  ∧ (∀ height stores toProtoErr, ∃ r w',
       handleLightBlockRequest stores toProtoErr envelope height w = Ret r w'
       ∧ reactor w' = reactor w)
  ∧ (∀ height, env_Message envelope = ParamsRequest height ->
     ∀ stores ready,
       handleParamsMessage stores ready envelope w =
         match (LoadConsensusParams stores (int64_of_uint64 height)).2 with
         | Some _ => Ret None w
         | None =>
             Ret None
                 (after w [paramsCh_Out
                    {| env_From := ""; env_To := env_From envelope;
                       env_Broadcast := false;
                       env_Message :=
                         ParamsResponse height
                           (LoadConsensusParams stores (int64_of_uint64 height)).1 |}])
         end).
Proof.
  split; [|split; [|split]].
  - intros Hmsg listed addErr. unfold handleSnapshotMessage, recentSnapshots.
    rewrite Hmsg. destruct listed as [err|snaps]; run_M.
    + by eexists.
    + rewrite advertise_trace. by eexists.
  - intros height format index Hmsg loaded addErr. unfold handleChunkMessage.
    rewrite Hmsg. destruct loaded; run_M; by eexists.
  - intros height stores toProtoErr. unfold handleLightBlockRequest.
    destruct (fetchLightBlock stores height) as [[lb|] [err|]]; cbn;
      try destruct (toProtoErr lb); run_M; by eexists _, _.
  - intros height Hmsg stores ready. unfold handleParamsMessage. rewrite Hmsg.
    destruct (LoadConsensusParams stores (int64_of_uint64 height)).2; by run_M.
Qed.
End StoreFacts.

(** ** Waiting for peers and building the state provider *)

Section StartOfSync.
Context `{ExternOps}.

Lemma waitForEnoughPeers_enough (numPeers : Z) (sched : list waitEvent) :
  ∀ w w1,
    waitForEnoughPeers sched numPeers w = Ret tt w1 ->
    wait_ctxDone ∈ sched ∨ numPeers <= Z.of_nat (length (peers (reactor w1))).
Proof.
  induction sched as [|[|peersNow] rest IH]; intros w w1 Hret.
  - done.
  - left. by left.
  - cbn [waitForEnoughPeers] in Hret. unfold peers_Len in Hret. run_M.
    case_bool_decide as Henough.
    + injection Hret as <-. right. cbn. lia.
    + destruct (IH _ _ Hret) as [Hdone|Hlen]; [left; by right|by right].
Qed.

Lemma waitForEnoughPeers_too_few (numPeers : Z) (sched : list waitEvent) :
  Forall (fun e => ∃ ps, e = wait_tick ps ∧ Z.of_nat (length ps) < numPeers) sched ->
  ∀ w, ∃ w', waitForEnoughPeers sched numPeers w = Blocked w'.
Proof.
  induction 1 as [|e rest (ps & -> & Hfew) _ IH]; intros w.
  - by exists w.
  - cbn [waitForEnoughPeers]. unfold peers_Len. run_M.
    rewrite bool_decide_eq_false_2 by lia. apply IH.
Qed.

(** X15: [waitForEnoughPeers] returns only when the context is done or a
    tick finds at least [numPeers] peers, and it returns on a done context
    however few peers there are; as long as every tick finds fewer peers it
    keeps waiting.  It calls nothing and changes nothing but the view of the
    peer list. *)
Theorem wait_ends_on_peers_or_cancel (numPeers : Z) (sched : list waitEvent)
    (w : World) :
  (∀ w1, waitForEnoughPeers sched numPeers w = Ret tt w1 ->
     (wait_ctxDone ∈ sched ∨ numPeers <= Z.of_nat (length (peers (reactor w1))))
     ∧ trace w1 = trace w
     ∧ ∃ ps, reactor w1 = set_peers ps (reactor w))
  ∧ (∀ rest, waitForEnoughPeers (wait_ctxDone :: rest) numPeers w = Ret tt w)
  ∧ (Forall (fun e => ∃ ps, e = wait_tick ps ∧ Z.of_nat (length ps) < numPeers) sched ->
     ∃ w', waitForEnoughPeers sched numPeers w = Blocked w').
Proof.
  split; [|split].
  - intros w1 Hret. split; [by eapply waitForEnoughPeers_enough|].
    destruct (waitForEnoughPeers_Ret _ _ _ _ Hret) as [ps ->]. split; [done|].
    by exists ps.
  - done.
  - intros Hfew. by apply waitForEnoughPeers_too_few.
Qed.

(** X16: [initStateProvider] makes exactly one constructor call, chosen by
    [UseP2P]: the P2P provider gets one block provider per id of the peer
    list, in its order and for the given chain id, the RPC provider gets the
    configured servers.  The state provider field receives what the
    constructor returned even when it failed; the error comes back wrapped
    with the mode's message; no other field changes. *)
Theorem initStateProvider_calls_one_constructor
    (made : option StateProvider * option error)
    (chainID_ : string) (initialHeight_ : Z) (w : World) :
  ∃ call : Effect,
    initStateProvider made chainID_ initialHeight_ w =
      Ret (fmt_Errorf_w
             (if cfg_UseP2P (cfg (reactor w))
              then "failed to initialize P2P state provider: "
              else "failed to initialize RPC state provider: ") <$> made.2)
          {| reactor := set_stateProvider made.1 (reactor w);
             trace := trace w ++ [call] |}
    ∧ if cfg_UseP2P (cfg (reactor w)) then
        ∃ ps, call = NewP2PStateProvider chainID_ initialHeight_ ps
              ∧ bp_peer <$> ps = peers (reactor w)
              ∧ Forall (fun p => bp_chainID p = chainID_) ps
      else
        call = NewRPCStateProvider chainID_ initialHeight_
                 (cfg_RPCServers (cfg (reactor w))).
Proof.
  unfold initStateProvider. run_M.
  destruct (cfg_UseP2P (cfg (reactor w))) eqn:Hmode; run_M.
  - eexists. split; [by destruct made.2|].
    eexists. split; [done|]. split.
    + rewrite <- list_fmap_compose. apply list_fmap_id.
    + apply Forall_fmap, Forall_true. done.
  - eexists. split; [by destruct made.2|done].
Qed.

(** X19: for a state with heights and maximum age that are not negative
    and an initial height not above the last block height, the range
    [Backfill] asks for is well-formed and stays within the chain: its stop
    height lies between the initial height and the start height, and is the
    initial height or the last block height less the maximum age. *)
Theorem Backfill_range_within_chain (sched : list verifyEvent) (state : State)
    (w : World) :
  let start := st_LastBlockHeight state in
  let age := MaxAgeNumBlocks (cp_Evidence (st_ConsensusParams state)) in
  0 <= start <= Int64.max_signed ->
  0 <= age <= Int64.max_signed ->
  st_InitialHeight state <= start ->
  ∃ (stop : Z) (stopTime : Time),
    Backfill sched state w =
      verifyLoop sched
        {| trustedBlockID := st_LastBlockID state; lastValidatorSet := None;
           lastChangeHeight := start |}
        (after w [newBlockQueue start stop (st_InitialHeight state) stopTime 20])
    ∧ st_InitialHeight state <= stop <= start
    ∧ (stop = st_InitialHeight state ∨ stop = start - age).
Proof.
  intros start age Hstart Hage Hinitial.
  pose proof (Backfill_unfold sched state w) as Hcall. cbn zeta in Hcall.
  rewrite backfill_unfold in Hcall. fold start age in Hcall.
  rewrite (Int64_sub_heights start age) in Hcall by done.
  eexists _, _. split; [exact Hcall|]. lia.
Qed.
End StartOfSync.

(** ** The inspector's server configuration *)

(** X20: [serverRPCConfig] takes the body and header limits from the RPC
    configuration and everything else from the defaults, and raises the
    write timeout only when the default does not exceed
    [TimeoutBroadcastTxCommit]: then, if that timeout plus one second fits
    an [int64], the write timeout is that sum, so the write timeout always
    ends above [TimeoutBroadcastTxCommit] and never below the default.  If
    the sum does not fit, the write timeout wraps to a negative duration. *)
Theorem serverRPCConfig_write_timeout {Other : Type}
    (defaults : Inspector.Config Other) (r : Inspector.RPCConfig) :
  let timeout := Inspector.TimeoutBroadcastTxCommit r in
  let cfg := Inspector.serverRPCConfig defaults r in
  Int64.in_range timeout ->
  Inspector.cfg_MaxBodyBytes cfg = Inspector.MaxBodyBytes r
  ∧ Inspector.cfg_MaxHeaderBytes cfg = Inspector.MaxHeaderBytes r
  ∧ Inspector.cfg_other cfg = Inspector.cfg_other defaults
  ∧ (timeout < Inspector.cfg_WriteTimeout defaults ->
     Inspector.cfg_WriteTimeout cfg = Inspector.cfg_WriteTimeout defaults)
  ∧ (timeout + 1000000000 <= Int64.max_signed ->
     timeout < Inspector.cfg_WriteTimeout cfg
     ∧ Inspector.cfg_WriteTimeout defaults <= Inspector.cfg_WriteTimeout cfg
     ∧ (Inspector.cfg_WriteTimeout defaults <= timeout ->
        Inspector.cfg_WriteTimeout cfg = timeout + 1000000000))
  ∧ (Int64.max_signed < timeout + 1000000000 ->
     Inspector.cfg_WriteTimeout defaults <= timeout ->
     Inspector.cfg_WriteTimeout cfg = timeout + 1000000000 - 2 ^ 64
     ∧ Inspector.cfg_WriteTimeout cfg < 0).
Proof.
  intros timeout cfg Hrange. subst cfg. unfold Inspector.serverRPCConfig.
  fold timeout. cbn [Inspector.cfg_WriteTimeout].
  unfold Int64.in_range, Int64.min_signed, Int64.max_signed in *.
  assert (timeout + 1000000000 <= 2 ^ 63 - 1 ->
          Int64.add timeout (1 * Channels.time_Second) = timeout + 1000000000)
    as Hfits.
  { intros Hle. unfold Int64.add, Int64.wrap, Int64.modulus, Channels.time_Second.
    rewrite Z.mod_small; lia. }
  assert (2 ^ 63 - 1 < timeout + 1000000000 ->
          Int64.add timeout (1 * Channels.time_Second) =
            timeout + 1000000000 - 2 ^ 64) as Hwraps.
  { intros Hlt. unfold Int64.add, Int64.wrap, Int64.modulus, Channels.time_Second.
    replace (timeout + 1 * 1000000000 + 2 ^ 63)
      with ((timeout + 1000000000 - 2 ^ 63) + 1 * 2 ^ 64) by lia.
    rewrite Z.mod_add, Z.mod_small; lia. }
  case_bool_decide as Hraise; cbn; repeat split; intros;
    rewrite ?Hfits, ?Hwraps by lia; try done; lia.
Qed.

(** ** The return paths of [Sync] *)

Section SyncPaths.
Context `{ExternOps}.

Lemma verifyLoop_ends (sched : list verifyEvent) :
  ∀ v w, (∃ r effects, verifyLoop sched v w = Ret r (after w effects))
         ∨ (∃ effects, verifyLoop sched v w = Blocked (after w effects)).
Proof.
  induction sched as [|ev rest IH]; intros v w.
  - right. exists []. by rewrite after_nil.
  - destruct (verifyStep_after v ev w) as (r & effects & Hstep & _).
    rewrite (verifyLoop_cons _ rest _ _ _ _ Hstep). destruct r as [v'|result].
    + destruct (IH v' (after w effects)) as [(r & effects' & ->)|(effects' & ->)];
        rewrite after_after; [left; by eexists _, _|right; by eexists].
    + left. by eexists _, _.
Qed.

Lemma Backfill_ends (sched : list verifyEvent) (state : State) (w : World) :
  (∃ r effects, Backfill sched state w = Ret r (after w effects))
  ∨ (∃ effects, Backfill sched state w = Blocked (after w effects)).
Proof.
  rewrite Backfill_unfold, backfill_unfold.
  match goal with
  | |- context [verifyLoop sched ?v ?w0] =>
      destruct (verifyLoop_ends sched v w0) as [(r & effects & ->)|(effects & ->)]
  end; rewrite after_after; [left; by eexists _, _|right; by eexists].
Qed.

#[local] Arguments Backfill : simpl never.
#[local] Arguments times : simpl never.
#[local] Arguments waitForEnoughPeers : simpl never.

(** X17: started on an idle reactor whose mutex is free, [Sync] never
    misuses the mutex, and when it returns the syncer field is nil again.
    Either the state provider could not be built, and then the mutex is
    still held for writing and the zero state is returned with the wrapped
    error; or the state provider field is nil and the mutex released, and
    then a returned error comes with the zero state while success comes with
    the state [SyncAny] produced. *)
Theorem Sync_return_paths (env : SyncEnv) (w : World) :
  mtx (reactor w) = Unlocked ->
  r_syncer (reactor w) = None ->
  match Sync env w with
  | Fatal _ _ => False
  | Blocked _ => True
  | Ret (state, err) w' =>
      r_syncer (reactor w') = None
      ∧ ((mtx (reactor w') = WLocked
          ∧ state = emptyState
          ∧ ∃ e, (se_newStateProvider env).2 = Some e
                 ∧ err = Some (fmt_Errorf_w
                                 (if cfg_UseP2P (cfg (reactor w))
                                  then "failed to initialize P2P state provider: "
                                  else "failed to initialize RPC state provider: ") e))
         ∨ (mtx (reactor w') = Unlocked
            ∧ stateProvider (reactor w') = None
            ∧ (se_newStateProvider env).2 = None
            ∧ (err = None -> state = (se_SyncAny env).1.1)
            ∧ (err ≠ None -> state = emptyState)))
  end.
Proof.
  intros Hfree Hidle. unfold Sync.
  destruct (waitForEnoughPeers_cases 2 (se_wait env) w) as [ps [Hw|Hw]];
    [|by rewrite (bind_Blocked _ _ _ _ Hw)].
  rewrite (bind_Ret _ _ _ _ _ Hw). clear Hw.
  destruct w as [r t]. destruct r as [c i g d ps0 m s pr sp]. cbn in *. subst.
  destruct env as [wait [made [e|]] hooks [[state commit] [anyErr|]]
                   [bootErr|] [commitErr|] backfillSched].
  all: unfold mtx_Lock, mtx_Unlock, initStateProvider, syncAndBootstrap, SyncAny,
              resetSyncing; run_M.
  all: destruct (cfg_UseP2P g); run_M; try rewrite times_hook; cbn;
       try (split; [done|]; left; repeat split; by eexists);
       try (split; [done|]; right; by repeat split).
  all: match goal with
       | |- context [Backfill ?sched ?st ?w0] =>
           destruct (Backfill_ends sched st w0) as [(r & effects & ->)|(effects & ->)]
       end; cbn; try done.
  all: split; [done|]; right; by repeat split.
Qed.

(** X18: once the syncer is installed, [Sync] stops at the first step that
    fails: if [SyncAny] fails its error is returned as it is and the stores
    are not touched; if [Bootstrap] fails the seen commit is not saved; if
    [SaveSeenCommit] fails no backfill is started.  Each time the zero state
    is returned, the error of a store comes wrapped with the step's message,
    and the syncer and state provider fields are reset with the mutex
    released. *)
Theorem Sync_stops_at_first_failure (env : SyncEnv) (w w1 : World)
    (state : State) (commit : Commit) :
  waitForEnoughPeers (se_wait env) 2 w = Ret tt w1 ->
  mtx (reactor w) = Unlocked ->
  r_syncer (reactor w) = None ->
  (se_newStateProvider env).2 = None ->
  (se_SyncAny env).1 = (state, commit) ->
  let r := reactor w in
  let started :=
    trace w ++
    (if cfg_UseP2P (cfg r)
     then NewP2PStateProvider (chainID r) (initialHeight r)
            ((fun p => NewBlockProvider p (chainID r)) <$> peers (reactor w1))
     else NewRPCStateProvider (chainID r) (initialHeight r) (cfg_RPCServers (cfg r)))
    :: syncer_SyncAny (cfg_DiscoveryTime (cfg r))
    :: replicate (se_hookCalls env)
         (snapshotCh_Out {| env_From := ""; env_To := ""; env_Broadcast := true;
                            env_Message := SnapshotsRequest |}) in
  let ended (effects : list Effect) : World :=
    {| reactor := set_stateProvider None (reactor w1); trace := started ++ effects |} in
  (∀ e, (se_SyncAny env).2 = Some e ->
     Sync env w = Ret (emptyState, Some e) (ended []))
  ∧ (∀ e, (se_SyncAny env).2 = None -> se_Bootstrap env = Some e ->
     Sync env w =
       Ret (emptyState,
            Some (fmt_Errorf_w "failed to bootstrap node with new state: " e))
           (ended [stateStore_Bootstrap state]))
  ∧ (∀ e, (se_SyncAny env).2 = None -> se_Bootstrap env = None ->
     se_SaveSeenCommit env = Some e ->
     Sync env w =
       Ret (emptyState, Some (fmt_Errorf_w "failed to store last seen commit: " e))
           (ended [ stateStore_Bootstrap state;
                    blockStore_SaveSeenCommit (st_LastBlockHeight state) commit ])).
Proof.
  intros Hwait Hfree Hidle Hinit Hany r started ended. subst r started ended.
  destruct (waitForEnoughPeers_Ret _ _ _ _ Hwait) as [ps ->].
  unfold Sync. rewrite (bind_Ret _ _ _ _ _ Hwait). clear Hwait.
  destruct w as [r t]. destruct r as [c i g d ps0 m s pr sp]. cbn in *. subst.
  destruct env as [wait [made initErr] hooks [[state' commit'] anyErr]
                   bootErr commitErr backfillSched].
  cbn in *. subst initErr. injection Hany as -> ->.
  unfold resetSyncing, initStateProvider, syncAndBootstrap, SyncAny.
  unfold mtx_Lock, mtx_Unlock.
  split; [|split].
  - intros e ->. run_M.
    destruct (cfg_UseP2P g); run_M; rewrite times_hook; unfold after; cbn;
      by rewrite <- ?app_assoc, ?app_nil_r.
  - intros e -> ->. run_M.
    destruct (cfg_UseP2P g); run_M; rewrite times_hook; unfold after; cbn;
      by rewrite <- ?app_assoc.
  - intros e -> -> ->. run_M.
    destruct (cfg_UseP2P g); run_M; rewrite times_hook; unfold after; cbn;
      by rewrite <- ?app_assoc.
Qed.
End SyncPaths.

(** ** The properties on a concrete run *)

Import Example.

Lemma sortSlice_spec : SortSliceSpec.
Proof.
  assert (Total (notAfter snapshotLess)) as Htotal.
  { intros a b. unfold notAfter, snapshotLess.
    repeat case_bool_decide; simpl; auto; lia. }
  split.
  - intros less l. apply merge_sort_Permutation.
  - intros l. apply (Sorted_merge_sort (notAfter snapshotLess)).
Qed.

Lemma verifier_persists_only_trusted_witness :
  LightBlock_Hash block10 = bid_Hash (trustedBlockID verifier10)
  ∧ (validatorSetChanged verifier10 block10 = true -> @None error = None)
  ∧ ∃ (v' : verifier) (saved : list Effect),
      verifyStep verifier10
        (ev_verifyNext {| resp_block := block10; resp_peer := "a" |} None None)
        world0 =
        Ret (inl v')
            (after world0
               (blockStore_SaveSignedHeader (lb_SignedHeader block10) trusted10
                :: saved ++ [queue_success 10]))
      ∧ trustedBlockID v' = lb_LastBlockID block10
      ∧ Forall (fun e => isSaveSignedHeader e = false) saved.
Proof.
  split; [reflexivity|]. split; [reflexivity|].
  destruct verifier_persists_only_trusted as (_ & Hmatch & _).
  apply (Hmatch verifier10 {| resp_block := block10; resp_peer := "a" |} None world0);
    reflexivity.
Defined.

Lemma validator_sets_saved_on_change_witness :
  LightBlock_Hash block8 = bid_Hash (trustedBlockID verifier8)
  ∧ lastValidatorSet verifier8 ≠ None
  ∧ hdr_ValidatorsHash (lb_Header block8) ≠ hdr_NextValidatorsHash (lb_Header block8)
  ∧ verifyStep verifier8
      (ev_verifyNext {| resp_block := block8; resp_peer := "a" |} None None) world0 =
      Ret (inl {| trustedBlockID := lb_LastBlockID block8;
                  lastValidatorSet := Some 5;
                  lastChangeHeight := 8 |})
          (after world0
             [ blockStore_SaveSignedHeader (lb_SignedHeader block8)
                                           (trustedBlockID verifier8);
               stateStore_SaveValidatorSets (Int64.add 8 1) 10 (Some 7);
               queue_success 8 ]).
Proof.
  split; [reflexivity|]. split; [discriminate|]. split; [discriminate|].
  destruct validator_sets_saved_on_change as (Hchange & _).
  apply (Hchange verifier8 {| resp_block := block8; resp_peer := "a" |} None world0);
    [reflexivity|discriminate|discriminate].
Defined.

(** On the two blocks of [twoBlocks], both matching their trusted ids, the
    source makes no [SaveValidatorSets] call: there is no block before block
    10, and block 9 has equal validator hashes.  The previously verified
    block 10 has different ones, so the rule worded on the previous block's
    hashes makes a call after block 9. *)
Lemma spec_wording_counterexample :
  filter (fun e => isSaveValidatorSets e = true)
         (trace (worldOf (verifyLoop twoBlocks verifier10 world0))) = []
  ∧ filter (fun e => isSaveValidatorSets e = true)
           (trace (worldOf (spec_verifyLoop twoBlocks verifier10 None world0))) =
      [stateStore_SaveValidatorSets 10 10 (Some 7)]
  ∧ ¬ verifier_follows_spec_wording.
Proof.
  split; [reflexivity|]. split; [reflexivity|].
  intros Hclaim.
  specialize (Hclaim types ops twoBlocks trusted10 10 world0).
  vm_compute in Hclaim. discriminate Hclaim.
Qed.

Lemma Backfill_range_witness :
  Int64.sub (st_LastBlockHeight state10) 100000 < st_InitialHeight state10
  ∧ Backfill [ev_ctxDone] state10 world0 =
      backfill [ev_ctxDone] "test-chain" 10 1 1 trusted10 1000 world0
  ∧ Backfill [ev_ctxDone] state10 world0 =
      Ret None {| reactor := idle;
                  trace := [newBlockQueue 10 1 1 1000 20; queue_close] |}.
Proof.
  split; [reflexivity|].
  destruct (Backfill_range [ev_ctxDone] state10 world0) as (_ & _ & Hcall & Hloop).
  split; [exact Hcall|]. rewrite Hloop. reflexivity.
Defined.

Lemma fetch_iteration_outcomes_witness :
  peers_Pop (fo_ctxCancelled fetched10) world0 = Ret "a" popped
  ∧ fetchIteration "test-chain" 10 fetched10 world0 =
      Ret Continue
          {| reactor := set_peers ["b"; "a"] idle;
             trace := [ dispatcher_LightBlock 10 "a";
                        queue_add {| resp_block := block10; resp_peer := "a" |} ] |}.
Proof.
  split; [reflexivity|].
  destruct (fetch_iteration_outcomes "test-chain" 10 fetched10 world0 popped "a")
    as (_ & _ & _ & _ & _ & Hadd); [reflexivity|].
  apply (Hadd block10); reflexivity.
Defined.

Lemma Sync_swallows_backfill_error_witness :
  waitForEnoughPeers (se_wait envBackfillFails) 2 world0 = Ret tt waited
  ∧ (∀ w0, ∃ w0',
       Backfill (se_backfill envBackfillFails) state10 w0 =
         Ret (Some retriesExhausted) w0')
  ∧ ∃ w',
      Sync envBackfillFails world0 = Ret (state10, None) w'
      ∧ r_syncer (reactor w') = None
      ∧ stateProvider (reactor w') = None
      ∧ mtx (reactor w') = Unlocked.
Proof.
  assert (∀ w0, ∃ w0',
            Backfill (se_backfill envBackfillFails) state10 w0 =
              Ret (Some retriesExhausted) w0') as Hbackfill
    by (intros w0; eexists; reflexivity).
  split; [reflexivity|]. split; [exact Hbackfill|].
  apply (Sync_swallows_backfill_error envBackfillFails world0 waited state10 3
           (Some retriesExhausted)); try reflexivity.
  exact Hbackfill.
Defined.

Lemma Sync_refuses_when_in_progress_witness :
  waitForEnoughPeers (se_wait envBackfillFails) 2 syncing = Ret tt syncingWaited
  ∧ r_syncer (reactor syncing) = Some running
  ∧ Sync envBackfillFails syncing =
      Ret (emptyState, Some (errors_New "a state sync is already in progress"))
          syncingWaited.
Proof.
  split; [reflexivity|]. split; [reflexivity|].
  apply (Sync_refuses_when_in_progress envBackfillFails syncing syncingWaited running);
    reflexivity.
Defined.

(** With a sync in progress, one peer connected and a context that stays
    live, [Sync] is still in [waitForEnoughPeers] after any number of
    ticks: it has not looked at the syncer field and does not return. *)
Lemma Sync_waits_before_refusing_counterexample :
  mtx (reactor syncing) = Unlocked
  ∧ r_syncer (reactor syncing) = Some running
  ∧ (∀ ticks, ∃ w', Sync (Scenario.envFewPeers ticks) syncing = Blocked w')
  ∧ ¬ Sync_refuses_immediately.
Proof.
  assert (∀ ticks, ∃ w', Sync (Scenario.envFewPeers ticks) syncing = Blocked w')
    as Hwaits.
  { intros ticks.
    destruct (waitForEnoughPeers_too_few 2 (se_wait (Scenario.envFewPeers ticks)))
      with (w := syncing) as [w' Hw'].
    - apply Forall_replicate. by exists ["a"].
    - exists w'. unfold Sync. by rewrite (bind_Blocked _ _ _ _ Hw'). }
  split; [reflexivity|]. split; [reflexivity|]. split; [exact Hwaits|].
  intros Hclaim.
  destruct (Hclaim types ops (Scenario.envFewPeers 1) syncing running eq_refl eq_refl)
    as (w' & Hret & _).
  destruct (Hwaits 1%nat) as [w'' Hblocked].
  rewrite Hblocked in Hret. discriminate Hret.
Qed.

Lemma Sync_init_failure_keeps_mutex_witness :
  waitForEnoughPeers (se_wait envInitFails) 2 world0 = Ret tt waited
  ∧ (se_newStateProvider envInitFails).2 = Some (errors_New "no witnesses connected")
  ∧ ∃ w2,
      Sync envInitFails world0 =
        Ret (emptyState,
             Some (fmt_Errorf_w "failed to initialize P2P state provider: "
                                (errors_New "no witnesses connected"))) w2
      ∧ mtx (reactor w2) = WLocked
      ∧ ∃ w3, Sync envBackfillFails w2 = Blocked w3.
Proof.
  split; [reflexivity|]. split; [reflexivity|].
  destruct (Sync_init_failure_keeps_mutex envInitFails world0 waited
              (errors_New "no witnesses connected"))
    as [(w2 & Hsync & _ & Hlocked & _ & _ & Hagain & _) _]; try reflexivity.
  exists w2. split; [exact Hsync|]. split; [exact Hlocked|].
  destruct (Hagain envBackfillFails) as (w3 & Hw3 & _). by exists w3.
Defined.

Lemma chunk_request_reply_witness :
  env_Message chunkRequest = ChunkRequest 5 1 0
  ∧ ∃ missing : bool,
      handleChunkMessage (inr None) None chunkRequest world0 =
        Ret None
          {| reactor := idle;
             trace :=
               [ conn_LoadSnapshotChunkSync
                   {| req_Height := 5; req_Format := 1; req_Chunk := 0 |};
                 chunkCh_Out
                   {| env_From := ""; env_To := "a"; env_Broadcast := false;
                      env_Message := ChunkResponse 5 1 0 None missing |} ] |}
      ∧ (missing = true ↔ @None bytes = None).
Proof.
  split; [reflexivity|].
  apply (chunk_request_reply 5 1 0 None None chunkRequest world0). reflexivity.
Defined.

Lemma snapshots_request_reply_witness :
  env_Message snapshotsRequest = SnapshotsRequest
  ∧ ∃ sent rest : list abci_Snapshot,
      handleSnapshotMessage (inr listed) None snapshotsRequest world0 =
        Ret None
          {| reactor := idle;
             trace := conn_ListSnapshotsSync ::
               ((fun s => snapshotCh_Out
                   {| env_From := ""; env_To := "a"; env_Broadcast := false;
                      env_Message :=
                        SnapshotsResponse (as_Height s) (as_Format s) (as_Chunks s)
                                          (as_Hash s) (as_Metadata s) |}) <$> sent) |}
      ∧ sent ++ rest ≡ₚ listed
      ∧ length sent = (10 `min` length listed)%nat
      ∧ StronglySorted snapshotGe sent
      ∧ (∀ a b, a ∈ sent -> b ∈ rest -> snapshotGe a b).
Proof.
  split; [reflexivity|].
  apply (@snapshots_request_reply types ops sortSlice_spec
           listed None snapshotsRequest world0).
  reflexivity.
Defined.

(** ** The further properties on concrete runs *)

Import Scenario.

Lemma verifier_saves_a_hash_chain_witness :
  ∃ effects : list Effect,
    worldOf (verifyLoop twoBlocks verifier10 world0) = after world0 effects
    ∧ headerChain trusted10 (savedHeaders effects).
Proof. apply (verifier_saves_a_hash_chain twoBlocks verifier10 world0). Defined.

Lemma verifier_ranges_are_contiguous_witness :
  ∃ effects : list Effect,
    worldOf (verifyLoop rangeSchedule verifier8 world0) = after world0 effects
    ∧ rangesOK (fun upper => upper = 10) (savedRanges effects).
Proof.
  destruct (verifier_ranges_are_contiguous rangeSchedule verifier8 world0)
    as (effects & Hw & Hranges & _).
  by exists effects.
Defined.

Lemma verifier_cancel_returns_nil_witness :
  verifyLoop twoBlocks verifier10 world0 = Blocked afterTwoBlocks
  ∧ verifyLoop (twoBlocks ++ [ev_ctxDone]) verifier10 world0 =
      Ret None (after afterTwoBlocks [queue_close]).
Proof.
  split; [reflexivity|].
  apply (verifier_cancel_returns_nil twoBlocks [] verifier10 world0 afterTwoBlocks).
  reflexivity.
Defined.

Lemma worker_adds_only_validated_blocks_witness :
  ∃ effects : list Effect,
    trace (worldOf (fetchWorker "test-chain" workerSchedule world0)) = [] ++ effects
    ∧ ∀ resp, resp ∈ queuedBlocks effects ->
        LightBlock_ValidateBasic (resp_block resp) "test-chain" = None
        ∧ ∃ o, (lb_Height (resp_block resp), o) ∈ scheduledHeights workerSchedule
               ∧ fo_err o = None
               ∧ fo_lb o = Some (resp_block resp).
Proof. apply (worker_adds_only_validated_blocks "test-chain" workerSchedule world0). Defined.

Lemma worker_only_rotates_peers_witness :
  ∃ ps : list NodeID,
    reactor (worldOf (fetchWorker "test-chain" workerSchedule world0)) =
      set_peers ps idle
    ∧ ∀ q, q ∈ ps -> q ∈ ["a"; "b"] ∨ q = ""%string.
Proof. apply (worker_only_rotates_peers "test-chain" workerSchedule world0). Defined.

Lemma responses_reach_the_syncer_only_during_sync_witness :
  mtx (reactor syncing) ≠ WLocked
  ∧ handleSnapshotMessage (inr []) None snapshotsResponse syncing =
      Ret None
          (after syncing
             [syncer_AddSnapshot "b"
                {| snap_Height := 2; snap_Format := 1; snap_Chunks := 4;
                   snap_Hash := [x01]; snap_Metadata := [] |}])
  ∧ handleSnapshotMessage (inr []) None snapshotsResponse world0 = Ret None world0.
Proof.
  split; [discriminate|].
  destruct (responses_reach_the_syncer_only_during_sync snapshotsResponse None syncing)
    as [Hsync _]; [discriminate|].
  destruct (responses_reach_the_syncer_only_during_sync snapshotsResponse None world0)
    as [Hidle _]; [discriminate|].
  split.
  - apply (Hsync (inr []) 2 1 4 [x01] []). reflexivity.
  - apply (Hidle (inr []) 2 1 4 [x01] []). reflexivity.
Defined.

Lemma handlers_fail_only_on_foreign_messages_witness :
  mtx (reactor world0) ≠ WLocked
  ∧ ∃ r w',
      handleSnapshotMessage (inr listed) None chunkRequest world0 = Ret r w'
      ∧ reactor w' = idle
      ∧ (r = None ↔ onSnapshotChannel (env_Message chunkRequest) = true)
      ∧ (r ≠ None -> r = Some unknownMessage ∧ w' = world0).
Proof.
  split; [discriminate|].
  destruct (handlers_fail_only_on_foreign_messages chunkRequest world0)
    as [Hsnapshot _]; [discriminate|].
  apply (Hsnapshot (inr listed) None).
Defined.

Lemma peer_update_without_sync_witness :
  mtx (reactor world0) = Unlocked
  ∧ r_syncer (reactor world0) = None
  ∧ ∃ ps : list NodeID,
      processPeerUpdate goesDown world0 =
        Ret tt {| reactor := set_peers ps idle; trace := [] |}
      ∧ (pu_Status goesDown = PeerStatusUp -> pu_NodeID goesDown ∈ ps)
      ∧ (pu_Status goesDown = PeerStatusDown -> pu_NodeID goesDown ∉ ps)
      ∧ (pu_Status goesDown = PeerStatusOther -> ps = ["a"; "b"]).
Proof.
  split; [reflexivity|]. split; [reflexivity|].
  apply (peer_update_without_sync goesDown world0); reflexivity.
Defined.

Lemma peer_update_during_sync_witness :
  mtx (reactor syncing) = Unlocked
  ∧ r_syncer (reactor syncing) = Some running
  ∧ ∃ w',
      processPeerUpdate comesUp syncing = Ret tt w'
      ∧ providers (reactor w') !! "c" =
          Some {| bp_peer := "c"; bp_chainID := "test-chain" |}
      ∧ trace w' =
          [ syncer_AddPeer "c";
            go_addProvider {| bp_peer := "c"; bp_chainID := "test-chain" |} ].
Proof.
  split; [reflexivity|]. split; [reflexivity|].
  destruct (peer_update_during_sync comesUp syncing running)
    as (w' & Hrun & _ & _ & _ & _ & Hprovider & Htrace); [reflexivity..|].
  exists w'. by repeat split.
Defined.

Lemma peer_up_then_down_witness :
  mtx (reactor syncing) = Unlocked
  ∧ r_syncer (reactor syncing) = Some running
  ∧ ∃ w1 w2,
      processPeerUpdate {| pu_NodeID := "c"; pu_Status := PeerStatusUp |} syncing =
        Ret tt w1
      ∧ processPeerUpdate {| pu_NodeID := "c"; pu_Status := PeerStatusDown |} w1 =
          Ret tt w2
      ∧ providers (reactor w2) = delete "c" (providers (reactor syncing))
      ∧ "c" ∉ peers (reactor w2).
Proof.
  split; [reflexivity|]. split; [reflexivity|].
  destruct (peer_up_then_down "c" syncing running)
    as (w1 & w2 & announced & Hup & Hdown & Hproviders & Hpeers & _);
    [reflexivity..|].
  exists w1, w2. by repeat split.
Defined.

Lemma fetchLightBlock_needs_all_parts_witness :
  (fetchLightBlock stores 10).1 =
    Some {| lb_SignedHeader := {| sh_Header := lb_Header block10; sh_Commit := 10 |};
            lb_ValidatorSet := Some 7 |}
  ∧ ((fetchLightBlock stores 11).2 = Some (errors_New "store closed") ↔
     is_Some (LoadBlockMeta stores (int64_of_uint64 11))
     ∧ is_Some (LoadBlockCommit stores (int64_of_uint64 11))
     ∧ (LoadValidators stores (int64_of_uint64 11)).2 = Some (errors_New "store closed")).
Proof.
  destruct (fetchLightBlock_needs_all_parts stores 10) as (Hblock & _ & _).
  destruct (fetchLightBlock_needs_all_parts stores 11) as (_ & Herror & _).
  split.
  - apply Hblock. by exists {| bm_Header := lb_Header block10 |}, 10, 7.
  - apply Herror.
Defined.

Lemma fetchLightBlock_height_conversion_witness :
  0 <= 2 ^ 63 + 10 < 2 ^ 64
  ∧ 2 ^ 63 <= 2 ^ 63 + 10
  ∧ (∀ k, k < 0 -> LoadBlockMeta stores k = None)
  ∧ int64_of_uint64 (2 ^ 63 + 10) = 2 ^ 63 + 10 - 2 ^ 64
  ∧ fetchLightBlock stores (2 ^ 63 + 10) = (None, None).
Proof.
  assert (∀ k, k < 0 -> LoadBlockMeta stores k = None) as Hempty.
  { intros k Hk. cbn. rewrite bool_decide_eq_false_2; [done|lia]. }
  split; [lia|]. split; [lia|]. split; [exact Hempty|].
  destruct (fetchLightBlock_height_conversion stores (2 ^ 63 + 10))
    as [_ Hhigh]; [lia|].
  destruct Hhigh as (Hkey & _ & Hnone); [lia|].
  split; [exact Hkey|]. by apply Hnone.
Defined.

Lemma light_block_request_reply_witness :
  LoadBlockMeta stores (int64_of_uint64 10) = Some {| bm_Header := lb_Header block10 |}
  ∧ LoadBlockCommit stores (int64_of_uint64 10) = Some 10
  ∧ LoadValidators stores (int64_of_uint64 10) = (Some 7, None)
  ∧ handleLightBlockRequest stores converts lightBlockRequest 10 world0 =
      Ret None
          (after world0
             [blockCh_Out
                {| env_From := ""; env_To := "a"; env_Broadcast := false;
                   env_Message :=
                     LightBlockResponse
                       (Some {| lb_SignedHeader :=
                                  {| sh_Header := lb_Header block10; sh_Commit := 10 |};
                                lb_ValidatorSet := Some 7 |}) |}]).
Proof.
  split; [reflexivity|]. split; [reflexivity|]. split; [reflexivity|].
  destruct (light_block_request_reply stores converts lightBlockRequest 10 world0)
    as (_ & Hfound & _).
  apply (Hfound {| bm_Header := lb_Header block10 |} 10 7); reflexivity.
Defined.

Lemma requests_do_not_take_the_mutex_witness :
  mtx (reactor leaked) = WLocked
  ∧ env_Message paramsRequest = ParamsRequest 10
  ∧ handleParamsMessage stores true paramsRequest leaked =
      Ret None
          (after leaked
             [paramsCh_Out
                {| env_From := ""; env_To := "a"; env_Broadcast := false;
                   env_Message :=
                     ParamsResponse 10 (LoadConsensusParams stores 10).1 |}]).
Proof.
  split; [reflexivity|]. split; [reflexivity|].
  destruct (requests_do_not_take_the_mutex paramsRequest leaked)
    as (_ & _ & _ & Hparams).
  apply (Hparams 10 eq_refl stores true).
Defined.

Lemma wait_ends_on_peers_or_cancel_witness :
  waitForEnoughPeers [wait_tick ["a"]; wait_tick ["a"; "b"]] 2 world0 = Ret tt waited
  ∧ (wait_ctxDone ∈ [wait_tick ["a"]; wait_tick ["a"; "b"]]
     ∨ 2 <= Z.of_nat (length (peers (reactor waited))))
  ∧ trace waited = trace world0.
Proof.
  split; [reflexivity|].
  destruct (wait_ends_on_peers_or_cancel 2 [wait_tick ["a"]; wait_tick ["a"; "b"]]
              world0) as (Hret & _ & _).
  destruct (Hret waited) as (Henough & Htrace & _); [reflexivity|]. by split.
Defined.

Lemma initStateProvider_calls_one_constructor_witness :
  ∃ call : Effect,
    initStateProvider (None, Some (errors_New "no witnesses connected"))
                      "test-chain" 1 world0 =
      Ret (Some (fmt_Errorf_w "failed to initialize P2P state provider: "
                              (errors_New "no witnesses connected")))
          {| reactor := set_stateProvider None idle; trace := [call] |}
    ∧ ∃ ps, call = NewP2PStateProvider "test-chain" 1 ps
            ∧ bp_peer <$> ps = ["a"; "b"]
            ∧ Forall (fun p => bp_chainID p = "test-chain") ps.
Proof.
  apply (initStateProvider_calls_one_constructor
           (None, Some (errors_New "no witnesses connected")) "test-chain" 1 world0).
Defined.

Lemma Sync_return_paths_witness :
  mtx (reactor world0) = Unlocked
  ∧ r_syncer (reactor world0) = None
  ∧ match Sync envBootstrapFails world0 with
    | Ret (state, err) w' =>
        r_syncer (reactor w') = None
        ∧ err ≠ None ∧ state = emptyState ∧ mtx (reactor w') = Unlocked
    | _ => False
    end.
Proof.
  split; [reflexivity|]. split; [reflexivity|].
  pose proof (Sync_return_paths envBootstrapFails world0 eq_refl eq_refl) as Hpaths.
  destruct (Sync envBootstrapFails world0) as [[state err] w'| |] eqn:Hsync;
    [|discriminate Hsync|discriminate Hsync].
  injection Hsync as <- <- <-.
  destruct Hpaths as [Hidle [(Hlocked & _)|(Hfree & _ & _ & _ & Hzero)]];
    [discriminate Hlocked|].
  split; [exact Hidle|]. split; [discriminate|]. split; [|exact Hfree].
  apply Hzero. discriminate.
Defined.

Lemma Sync_stops_at_first_failure_witness :
  waitForEnoughPeers (se_wait envBootstrapFails) 2 world0 = Ret tt waited
  ∧ se_Bootstrap envBootstrapFails = Some (errors_New "disk full")
  ∧ Sync envBootstrapFails world0 =
      Ret (emptyState,
           Some (fmt_Errorf_w "failed to bootstrap node with new state: "
                              (errors_New "disk full")))
          {| reactor := set_stateProvider None (reactor waited);
             trace :=
               [ NewP2PStateProvider "test-chain" 1
                   [ {| bp_peer := "a"; bp_chainID := "test-chain" |};
                     {| bp_peer := "b"; bp_chainID := "test-chain" |} ];
                 syncer_SyncAny 0;
                 snapshotCh_Out {| env_From := ""; env_To := ""; env_Broadcast := true;
                                   env_Message := SnapshotsRequest |};
                 snapshotCh_Out {| env_From := ""; env_To := ""; env_Broadcast := true;
                                   env_Message := SnapshotsRequest |};
                 stateStore_Bootstrap state10 ] |}.
Proof.
  split; [reflexivity|]. split; [reflexivity|].
  destruct (Sync_stops_at_first_failure envBootstrapFails world0 waited state10 3)
    as (_ & Hboot & _); [reflexivity..|].
  apply (Hboot (errors_New "disk full")); reflexivity.
Defined.

Lemma Backfill_range_within_chain_witness :
  0 <= st_LastBlockHeight state10 <= Int64.max_signed
  ∧ st_InitialHeight state10 <= st_LastBlockHeight state10
  ∧ ∃ (stop : Z) (stopTime : Time),
      Backfill [] state10 world0 =
        verifyLoop []
          {| trustedBlockID := trusted10; lastValidatorSet := None;
             lastChangeHeight := 10 |}
          (after world0 [newBlockQueue 10 stop 1 stopTime 20])
      ∧ 1 <= stop <= 10
      ∧ (stop = 1 ∨ stop = 10 - 100000).
Proof.
  assert (0 <= 10 <= Int64.max_signed) as Hstart by (split; discriminate).
  assert (0 <= 100000 <= Int64.max_signed) as Hage by (split; discriminate).
  split; [exact Hstart|]. split; [discriminate|].
  apply (Backfill_range_within_chain [] state10 world0 Hstart Hage). discriminate.
Defined.

Lemma serverRPCConfig_write_timeout_witness :
  Int64.in_range (Inspector.TimeoutBroadcastTxCommit rpcConfig)
  ∧ Inspector.TimeoutBroadcastTxCommit rpcConfig + 1000000000 <= Int64.max_signed
  ∧ Inspector.cfg_WriteTimeout (Inspector.serverRPCConfig serverDefaults rpcConfig) =
      31000000000
  ∧ Inspector.cfg_MaxBodyBytes (Inspector.serverRPCConfig serverDefaults rpcConfig) =
      2000000.
Proof.
  assert (Int64.in_range (Inspector.TimeoutBroadcastTxCommit rpcConfig)) as Hrange
    by (split; discriminate).
  split; [exact Hrange|]. split; [discriminate|].
  destruct (serverRPCConfig_write_timeout serverDefaults rpcConfig Hrange)
    as (Hbody & _ & _ & _ & Hfits & _).
  destruct Hfits as (_ & _ & Hsum); [discriminate|].
  split; [apply Hsum; discriminate|exact Hbody].
Defined.
